(** * GigaAM streaming session and offline VAD segmenter

    A shallow embedding of [gigaam/stream.py] (class [AudioStream]) and
    [gigaam/vad_utils.py] (function [segment_audio]).

    Conventions of the embedding.
    - A one-dimensional tensor is a [list] of samples; [shape0] is its
      [shape[0]].  Samples are rationals ([Q]): the exact-arithmetic reading
      of the float32 values the program stores.  Comparisons and branch
      structure are those of the source; rounding is outside the model.
    - Python integers are [Z].
    - A Python exception is an [outcome] built with [Raise]; it carries the
      state the object is left in when the exception leaves the method.
    - The ASR model, [utils.format_time], the wall clock and the VAD
      pipeline are not part of the two source files; they are the
      [Variable]s of section [Session]. *)

From Stdlib Require Import String List ZArith QArith Qabs Qround Lia Bool.
Import ListNotations.
Open Scope Z_scope.

(** ** Tensors *)

Definition tensor := list Q.

Definition shape0 (t : tensor) : Z := Z.of_nat (length t).

(** [sum(chunk.shape[0] for chunk in buffer)] *)
Definition total_samples (buffer : list tensor) : Z :=
  fold_right (fun chunk acc => shape0 chunk + acc) 0 buffer.

(** [torch.cat(buffer)] on a list of one-dimensional tensors. *)
Definition cat (buffer : list tensor) : tensor := concat buffer.

(** [x > y] on samples. *)
Definition Qgt_bool (x y : Q) : bool := negb (Qle_bool x y).

Definition qmax (a b : Q) : Q := if Qle_bool a b then b else a.

(** [t.abs().max()]: torch refuses to reduce an empty tensor, which is the
    [None] here. *)
Definition abs_max (t : tensor) : option Q :=
  match t with
  | [] => None
  | x :: rest => Some (fold_left (fun m y => qmax m (Qabs y)) rest (Qabs x))
  end.

(** [t / peak], elementwise. *)
Definition scale_by (peak : Q) (t : tensor) : tensor :=
  map (fun x => x / peak)%Q t.

(** [(audio ** 2).mean()]; only used on a tensor that is not empty. *)
Definition mean_square (audio : tensor) : Q :=
  (fold_right (fun x acc => x * x + acc) 0 audio / inject_Z (shape0 audio))%Q.

(** [t[a:b]] for [0 <= a <= b]. *)
Definition slice (a b : Z) (t : tensor) : tensor :=
  firstn (Z.to_nat (b - a)) (skipn (Z.to_nat a) t).

(** [t[i:]] with Python's reading of a negative index. *)
Definition slice_from (i : Z) (t : tensor) : tensor :=
  if i <? 0 then skipn (Z.to_nat (Z.max 0 (shape0 t + i))) t
  else skipn (Z.to_nat i) t.

(** [range(0, n, step)] for a positive [step]. *)
Definition range_step (n step : Z) : list Z :=
  map (fun k => Z.of_nat k * step) (seq 0 (Z.to_nat ((n + step - 1) / step))).

(** [int(x)] on a float: truncation towards zero. *)
Definition py_int (x : Q) : Z :=
  if Qle_bool 0 x then Qfloor x else Qceiling x.

(** ** Exceptions *)

Inductive exn : Type :=
| RuntimeError
| IndexError
| ZeroDivisionError
| ValueError (message : string)
| TypeError (message : string)
| AttributeError
| OtherError (class : string).  (* any other exception class, by name *)

Inductive outcome (S : Type) : Type :=
| Return (s : S)
| Raise (e : exn) (s : S).

Arguments Return {S} s.
Arguments Raise {S} e s.

Definition bind {S : Type} (m : outcome S) (k : S -> outcome S) : outcome S :=
  match m with
  | Return s => k s
  | Raise e s => Raise e s
  end.

Definition state_of {S : Type} (m : outcome S) : S :=
  match m with
  | Return s => s
  | Raise _ s => s
  end.

Definition returns {S : Type} (m : outcome S) : bool :=
  match m with
  | Return _ => true
  | Raise _ _ => false
  end.

(** ** The eviction loop of [add_audio_chunk]

    [while total_samples > max_buffer_samples:
         removed = audio_buffer.pop(0); total_samples -= removed.shape[0]]
    [pop(0)] on an empty list raises [IndexError]. *)
Fixpoint evict (max_buffer_samples total : Z) (buffer : list tensor)
  {struct buffer} : outcome (list tensor) :=
  if max_buffer_samples <? total then
    match buffer with
    | [] => Raise IndexError []
    | removed :: rest => evict max_buffer_samples (total - shape0 removed) rest
    end
  else Return buffer.

(** Lines 131-133: the amplitude is rescaled only when the peak exceeds 1.0. *)
Definition normalize (audio_chunk : tensor) : option tensor :=
  match abs_max audio_chunk with
  | None => None
  | Some peak =>
      Some (if Qgt_bool peak 1 then scale_by peak audio_chunk else audio_chunk)
  end.

(** ** The streaming session ([class AudioStream]) *)

(** One segment of the VAD pipeline's timeline; [seg_score] is the optional
    attribute read with [getattr(segment, 'score', 1.0)]. *)
Record vad_segment : Type := {
  seg_start : Q;
  seg_end : Q;
  seg_score : option Q
}.

(** What [__init__] fixes for the lifetime of the session. *)
Record config : Type := {
  sample_rate : Z;
  chunk_size : Z;
  max_buffer_samples : Z;
  threshold : Q;
  min_silence_samples : Z;
  stabilization_frames : Z;
  vad_threshold : Q;
  use_vad : bool;
  vad_buffer_size : Z;
  callback : bool  (* whether a callback was supplied *)
}.

(** The assignments of [__init__].  [vad_loaded] stands for the outcome of
    [VAD_AVAILABLE], the [HF_TOKEN] test and [get_pipeline]. *)
Definition __init__ (sample_rate chunk_size buffer_size : Z) (threshold : Q)
  (min_silence_duration : Q) (stabilization_frames : Z) (use_vad : bool)
  (vad_threshold : Q) (callback : bool) (vad_loaded : bool) : config :=
  {| sample_rate := sample_rate;
     chunk_size := chunk_size;
     max_buffer_samples := buffer_size * sample_rate;
     threshold := threshold;
     min_silence_samples := py_int (min_silence_duration * inject_Z sample_rate);
     stabilization_frames := stabilization_frames;
     vad_threshold := vad_threshold;
     use_vad := use_vad && vad_loaded;
     vad_buffer_size := 3 * sample_rate;
     callback := callback |}.

(** The defaults of the constructor's signature. *)
Definition default_config (vad_loaded : bool) : config :=
  __init__ 16000 4000 30 (1 # 100) (8 # 10) 5 true (1 # 2) false vad_loaded.

Section Session.

(** The collaborators that live outside the two source files. *)
Context {Text Stamp : Type}.
(** [_recognize_audio]: feature extractor, encoder and decoder. *)
Variable recognize_audio : tensor -> Text.
(** [utils.format_time]. *)
Variable format_time : Q -> Stamp.
(** [time.time()]: the value returned by the n-th reading of the clock. *)
Variable time_time : nat -> Q.
(** The VAD pipeline applied to the window; [None] is any exception raised
    inside the [try] block of [_detect_speech_vad]. *)
Variable vad : tensor -> option (list vad_segment).

Variable cfg : config.

(** The result dictionary. *)
Record result : Type := {
  text : Text;
  start_time : Stamp;
  end_time : Stamp;
  duration : Stamp;
  is_final : bool
}.

(** The mutable attributes of the session.  [clock_reads] and [vad_calls]
    count the calls made to the clock and to the VAD pipeline;
    [callback_log] lists the results handed to the callback.
    [transcription_buffer] is assigned in [__init__] and never used again;
    it is left out. *)
Record stream : Type := {
  audio_buffer : list tensor;
  is_speaking : bool;
  silence_counter : Z;
  speaking_buffer : list tensor;
  last_end_time : Q;
  vad_buffer : list tensor;
  interim_results : list result;
  final_results : list result;
  running : bool;
  clock_reads : nat;
  vad_calls : nat;
  callback_log : list result
}.

Definition initial_stream : stream :=
  {| audio_buffer := [];
     is_speaking := false;
     silence_counter := 0;
     speaking_buffer := [];
     last_end_time := 0;
     vad_buffer := [];
     interim_results := [];
     final_results := [];
     running := true;
     clock_reads := O;
     vad_calls := O;
     callback_log := [] |}.

Definition set_audio_buffer (b : list tensor) (s : stream) : stream :=
  {| audio_buffer := b;
     is_speaking := is_speaking s;
     silence_counter := silence_counter s;
     speaking_buffer := speaking_buffer s;
     last_end_time := last_end_time s;
     vad_buffer := vad_buffer s;
     interim_results := interim_results s;
     final_results := final_results s;
     running := running s;
     clock_reads := clock_reads s;
     vad_calls := vad_calls s;
     callback_log := callback_log s |}.

Definition set_vad_buffer (b : list tensor) (s : stream) : stream :=
  {| audio_buffer := audio_buffer s;
     is_speaking := is_speaking s;
     silence_counter := silence_counter s;
     speaking_buffer := speaking_buffer s;
     last_end_time := last_end_time s;
     vad_buffer := b;
     interim_results := interim_results s;
     final_results := final_results s;
     running := running s;
     clock_reads := clock_reads s;
     vad_calls := vad_calls s;
     callback_log := callback_log s |}.

Definition count_vad_call (s : stream) : stream :=
  {| audio_buffer := audio_buffer s;
     is_speaking := is_speaking s;
     silence_counter := silence_counter s;
     speaking_buffer := speaking_buffer s;
     last_end_time := last_end_time s;
     vad_buffer := vad_buffer s;
     interim_results := interim_results s;
     final_results := final_results s;
     running := running s;
     clock_reads := clock_reads s;
     vad_calls := S (vad_calls s);
     callback_log := callback_log s |}.

(** The run state written by the speech and silence branches. *)
Definition set_run (speaking : bool) (silence : Z) (buf : list tensor)
  (s : stream) : stream :=
  {| audio_buffer := audio_buffer s;
     is_speaking := speaking;
     silence_counter := silence;
     speaking_buffer := buf;
     last_end_time := last_end_time s;
     vad_buffer := vad_buffer s;
     interim_results := interim_results s;
     final_results := final_results s;
     running := running s;
     clock_reads := clock_reads s;
     vad_calls := vad_calls s;
     callback_log := callback_log s |}.

(** *** [add_audio_chunk] *)

Definition add_audio_chunk (audio_chunk : tensor) (s : stream)
  : outcome stream :=
  match normalize audio_chunk with
  | None => Raise RuntimeError s
  | Some audio_chunk =>
      let buffer := audio_buffer s ++ [audio_chunk] in
      match evict (max_buffer_samples cfg) (total_samples buffer) buffer with
      | Return b => Return (set_audio_buffer b s)
      | Raise e b => Raise e (set_audio_buffer b s)
      end
  end.

(** *** The drain at the head of the worker loop (lines 251-262)

    [None]: the buffer is empty, the worker sleeps and polls again. *)
Definition drain_all (s : stream) : option (tensor * stream) :=
  match audio_buffer s with
  | [] => None
  | _ :: _ => Some (cat (audio_buffer s), set_audio_buffer [] s)
  end.

(** *** [reset] *)

Definition reset (s : stream) : stream :=
  {| audio_buffer := [];
     is_speaking := false;
     silence_counter := 0;
     speaking_buffer := [];
     last_end_time := last_end_time s;
     vad_buffer := [];
     interim_results := [];
     final_results := final_results s;
     running := running s;
     clock_reads := clock_reads s;
     vad_calls := vad_calls s;
     callback_log := callback_log s |}.

(** *** Histories of the buffer

    The operations that write [audio_buffer]: the producer's
    [add_audio_chunk], the worker's drain and [reset]. *)
Inductive buffer_op : Type :=
| OpAppend (audio_chunk : tensor)
| OpDrain
| OpReset.

Definition apply_op (o : buffer_op) (s : stream) : outcome stream :=
  match o with
  | OpAppend audio_chunk => add_audio_chunk audio_chunk s
  | OpDrain =>
      Return (match drain_all s with Some (_, s') => s' | None => s end)
  | OpReset => Return (reset s)
  end.

Fixpoint apply_ops (ops : list buffer_op) (s : stream) : outcome stream :=
  match ops with
  | [] => Return s
  | o :: rest => bind (apply_op o s) (apply_ops rest)
  end.

(** The buffer is empty or within the capacity. *)
Definition within_capacity (s : stream) : Prop :=
  audio_buffer s = [] \/
  total_samples (audio_buffer s) <= max_buffer_samples cfg.

(** The sub-chunks of the run in progress. *)
Definition run_buffer (s : stream) : list tensor :=
  if is_speaking s then speaking_buffer s else [].

(** *** [stop]: the flag; joining the thread is outside the model. *)
Definition stop (s : stream) : stream :=
  {| audio_buffer := audio_buffer s;
     is_speaking := is_speaking s;
     silence_counter := silence_counter s;
     speaking_buffer := speaking_buffer s;
     last_end_time := last_end_time s;
     vad_buffer := vad_buffer s;
     interim_results := interim_results s;
     final_results := final_results s;
     running := false;
     clock_reads := clock_reads s;
     vad_calls := vad_calls s;
     callback_log := callback_log s |}.

(** *** Speech detection *)

(** [_detect_speech_energy].  The mean of an empty tensor is NaN, and every
    comparison with NaN is false. *)
Definition _detect_speech_energy (audio : tensor) : bool :=
  match audio with
  | [] => false
  | _ :: _ => Qgt_bool (mean_square audio) (threshold cfg)
  end.

(** [n / sample_rate] in seconds, for a sample rate that is not zero. *)
Definition seconds (n : Z) : Q := (inject_Z n / inject_Z (sample_rate cfg))%Q.

(** The loop over [vad_result.get_timeline().support()] (lines 224-230):
    the first segment that ends inside the last half second decides. *)
Fixpoint tail_speech (limit : Q) (timeline : list vad_segment) : bool :=
  match timeline with
  | [] => false
  | segment :: rest =>
      if Qgt_bool (seg_end segment) limit then
        let speech_proba :=
          match seg_score segment with Some p => p | None => 1%Q end in
        Qgt_bool speech_proba (vad_threshold cfg)
      else tail_speech limit rest
  end.

(** [_detect_speech_vad]: the classification and the session it leaves. *)
Definition _detect_speech_vad (audio : tensor) (s : stream) : bool * stream :=
  if negb (use_vad cfg) then (_detect_speech_energy audio, s)
  else
    let s := set_vad_buffer (vad_buffer s ++ [audio]) s in
    let vad_audio_length := total_samples (vad_buffer s) in
    if vad_audio_length <? vad_buffer_size cfg then (false, s)
    else
      let vad_audio := cat (vad_buffer s) in
      let trim := vad_buffer_size cfg <? shape0 vad_audio in
      let vad_audio :=
        if trim then slice_from (- vad_buffer_size cfg) vad_audio
        else vad_audio in
      let s := if trim then set_vad_buffer [vad_audio] s else s in
      let s := count_vad_call s in
      match vad vad_audio with
      | None => (_detect_speech_energy audio, s)
      | Some [] => (false, s)
      | Some (segment :: rest) =>
          if sample_rate cfg =? 0 then (_detect_speech_energy audio, s)
          else
            (tail_speech (seconds (shape0 vad_audio) - (1 # 2))%Q
               (segment :: rest), s)
      end.

(** [_detect_speech]: the body is the [return True] of line 238; the lines
    after it are never run. *)
Definition _detect_speech (audio : tensor) : bool := true.

(** *** Results *)

(** The dictionary built by both [_finalize_speech_segment] and
    [_perform_interim_recognition] once the clock has been read. *)
Definition make_result (final : bool) (speech_segment : tensor)
  (current_time : Q) : result :=
  let transcript := recognize_audio speech_segment in
  let duration := seconds (shape0 speech_segment) in
  let start_time := (current_time - duration)%Q in
  {| text := transcript;
     start_time := format_time start_time;
     end_time := format_time current_time;
     duration := format_time duration;
     is_final := final |}.

Definition read_clock (s : stream) : stream :=
  {| audio_buffer := audio_buffer s;
     is_speaking := is_speaking s;
     silence_counter := silence_counter s;
     speaking_buffer := speaking_buffer s;
     last_end_time := last_end_time s;
     vad_buffer := vad_buffer s;
     interim_results := interim_results s;
     final_results := final_results s;
     running := running s;
     clock_reads := S (clock_reads s);
     vad_calls := vad_calls s;
     callback_log := callback_log s |}.

Definition call_back (r : result) (log : list result) : list result :=
  if callback cfg then log ++ [r] else log.

(** [_perform_interim_recognition].  [torch.cat] refuses an empty list, and
    the division by [sample_rate] comes after the clock is read. *)
Definition _perform_interim_recognition (s : stream) : outcome stream :=
  match speaking_buffer s with
  | [] => Raise RuntimeError s
  | _ :: _ =>
      let speech_segment := cat (speaking_buffer s) in
      let current_time := time_time (clock_reads s) in
      let s := read_clock s in
      if sample_rate cfg =? 0 then Raise ZeroDivisionError s
      else
        let r := make_result false speech_segment current_time in
        Return
          {| audio_buffer := audio_buffer s;
             is_speaking := is_speaking s;
             silence_counter := silence_counter s;
             speaking_buffer := speaking_buffer s;
             last_end_time := last_end_time s;
             vad_buffer := vad_buffer s;
             interim_results := interim_results s ++ [r];
             final_results := final_results s;
             running := running s;
             clock_reads := clock_reads s;
             vad_calls := vad_calls s;
             callback_log := call_back r (callback_log s) |}
  end.

(** [_finalize_speech_segment] *)
Definition _finalize_speech_segment (s : stream) : outcome stream :=
  match speaking_buffer s with
  | [] => Raise RuntimeError s
  | _ :: _ =>
      let speech_segment := cat (speaking_buffer s) in
      let current_time := time_time (clock_reads s) in
      let s := read_clock s in
      if sample_rate cfg =? 0 then Raise ZeroDivisionError s
      else
        let r := make_result true speech_segment current_time in
        Return
          {| audio_buffer := audio_buffer s;
             is_speaking := false;
             silence_counter := 0;
             speaking_buffer := [];
             last_end_time := current_time;
             vad_buffer := [];
             interim_results := interim_results s;
             final_results := final_results s ++ [r];
             running := running s;
             clock_reads := clock_reads s;
             vad_calls := vad_calls s;
             callback_log := call_back r (callback_log s) |}
  end.

(** *** The segmentation loop *)

(** Lines 281-303: what one sub-chunk does to the run, given its
    classification. *)
Definition on_subchunk (is_speech : bool) (subchunk : tensor) (s : stream)
  : outcome stream :=
  if is_speech then
    let s :=
      if negb (is_speaking s) then set_run true 0 [subchunk] s
      else set_run true 0 (speaking_buffer s ++ [subchunk]) s in
    if stabilization_frames cfg =? 0 then Raise ZeroDivisionError s
    else if Z.of_nat (length (speaking_buffer s)) mod stabilization_frames cfg
            =? 0
    then _perform_interim_recognition s
    else Return s
  else if is_speaking s then
    let s :=
      set_run true (silence_counter s + shape0 subchunk)
        (speaking_buffer s ++ [subchunk]) s in
    if min_silence_samples cfg <=? silence_counter s
    then _finalize_speech_segment s
    else Return s
  else Return s.

(** Lines 266-303: one turn of the [for] loop. *)
Definition process_subchunk (subchunk : tensor) (s : stream) : outcome stream :=
  on_subchunk (_detect_speech subchunk) subchunk s.

(** The sub-chunks of a drained block (lines 265, 270, 271). *)
Definition subchunks (audio_chunk : tensor) : list tensor :=
  let n := shape0 audio_chunk in
  map (fun i => slice i (Z.min (i + chunk_size cfg) n) audio_chunk)
    (range_step n (chunk_size cfg)).

(** The [for] loop; [if not self.running: break] ends it early. *)
Fixpoint process_subchunks (chunks : list tensor) (s : stream)
  : outcome stream :=
  match chunks with
  | [] => Return s
  | subchunk :: rest =>
      if negb (running s) then Return s
      else bind (process_subchunk subchunk s) (process_subchunks rest)
  end.

(** One turn of [while self.running] in [_process_stream].  [range] raises
    [ValueError] for a zero step and is empty for a negative one. *)
Definition _process_stream_step (s : stream) : outcome stream :=
  if negb (running s) then Return s
  else
    match drain_all s with
    | None => Return s
    | Some (audio_chunk, s) =>
        if chunk_size cfg =? 0
        then Raise (ValueError "range() arg 3 must not be zero"%string) s
        else if chunk_size cfg <? 0 then Return s
        else process_subchunks (subchunks audio_chunk) s
    end.

(** The loop of lines 281-303 over a stream of sub-chunks whose
    classification is given with them. *)
Fixpoint run_classified (chunks : list (bool * tensor)) (s : stream)
  : outcome stream :=
  match chunks with
  | [] => Return s
  | (is_speech, subchunk) :: rest =>
      bind (on_subchunk is_speech subchunk s) (run_classified rest)
  end.

End Session.

(** A stream of sub-chunks all classified as speech, or all as silence. *)
Definition speech (chunks : list tensor) : list (bool * tensor) :=
  map (pair true) chunks.
Definition silence (chunks : list tensor) : list (bool * tensor) :=
  map (pair false) chunks.

(** ceil(a / b) for a positive [b]. *)
Definition ceil_div (a b : Z) : Z := (a + b - 1) / b.

(** ** The two threads and the buffer lock

    The producer runs [add_audio_chunk] (lines 135-142), the worker runs the
    head of [_process_stream] (lines 251-262); both bodies are inside
    [with self.buffer_lock].  One step is one statement of one thread. *)

Inductive thread : Type := Producer | Worker.

(** Where the producer is in [add_audio_chunk]. *)
Inductive producer_pc : Type :=
| PIdle                      (* outside the method *)
| PLocked (chunk : tensor)   (* lock taken, before [append] *)
| PEvict (total : Z).        (* at the test of the [while] loop *)

(** Where the worker is in the locked block of [_process_stream]. *)
Inductive worker_pc : Type :=
| WIdle                      (* outside the block *)
| WLocked                    (* lock taken, before [if not self.audio_buffer] *)
| WJoined (audio : tensor)   (* after [torch.cat], before [audio_buffer = []] *)
| WDrained (audio : tensor). (* after [audio_buffer = []], lock still held *)

Record shared : Type := {
  buffer : list tensor;
  lock : option thread;
  ppc : producer_pc;
  wpc : worker_pc;
  drained : list tensor  (* the blocks handed to the [for] loop, in order *)
}.

Definition initial_shared : shared :=
  {| buffer := []; lock := None; ppc := PIdle; wpc := WIdle; drained := [] |}.

(** What the scheduler picks: a call of [add_audio_chunk], one more
    statement of the producer, or one more statement of the worker. *)
Inductive event : Type :=
| Call (audio_chunk : tensor)
| ProducerStep
| WorkerStep.

(** One step; [None] when the thread cannot move (it waits for the lock, or
    there is nothing for it to do). *)
Definition thread_step (max_buffer_samples : Z) (e : event) (s : shared)
  : option shared :=
  match e, ppc s, wpc s with
  | Call audio_chunk, PIdle, _ =>
      match normalize audio_chunk, lock s with
      | Some chunk, None =>
          Some {| buffer := buffer s; lock := Some Producer;
                  ppc := PLocked chunk; wpc := wpc s; drained := drained s |}
      | _, _ => None
      end
  | ProducerStep, PLocked chunk, _ =>
      Some {| buffer := buffer s ++ [chunk]; lock := lock s;
              ppc := PEvict (total_samples (buffer s ++ [chunk]));
              wpc := wpc s; drained := drained s |}
  | ProducerStep, PEvict total, _ =>
      if max_buffer_samples <? total then
        match buffer s with
        | removed :: rest =>
            Some {| buffer := rest; lock := lock s;
                    ppc := PEvict (total - shape0 removed);
                    wpc := wpc s; drained := drained s |}
        | [] => (* IndexError leaves the [with] block *)
            Some {| buffer := []; lock := None; ppc := PIdle;
                    wpc := wpc s; drained := drained s |}
        end
      else
        Some {| buffer := buffer s; lock := None; ppc := PIdle;
                wpc := wpc s; drained := drained s |}
  | WorkerStep, _, WIdle =>
      match lock s with
      | None =>
          Some {| buffer := buffer s; lock := Some Worker; ppc := ppc s;
                  wpc := WLocked; drained := drained s |}
      | Some _ => None
      end
  | WorkerStep, _, WLocked =>
      match buffer s with
      | [] => (* sleep, [continue]: the block is left *)
          Some {| buffer := []; lock := None; ppc := ppc s;
                  wpc := WIdle; drained := drained s |}
      | _ :: _ =>
          Some {| buffer := buffer s; lock := lock s; ppc := ppc s;
                  wpc := WJoined (cat (buffer s)); drained := drained s |}
      end
  | WorkerStep, _, WJoined audio =>
      Some {| buffer := []; lock := lock s; ppc := ppc s;
              wpc := WDrained audio; drained := drained s |}
  | WorkerStep, _, WDrained audio =>
      Some {| buffer := buffer s; lock := None; ppc := ppc s;
              wpc := WIdle; drained := drained s ++ [audio] |}
  | _, _, _ => None
  end.

(** A schedule, run from a state; [None] when some step cannot be taken. *)
Fixpoint schedule (max_buffer_samples : Z) (events : list event) (s : shared)
  : option shared :=
  match events with
  | [] => Some s
  | e :: rest =>
      match thread_step max_buffer_samples e s with
      | Some s' => schedule max_buffer_samples rest s'
      | None => None
      end
  end.

(** What holds of the shared state between any two steps: at most one
    thread is inside its locked block and it holds the lock; the producer's
    running total is the buffer's; what the worker has joined is the
    buffer; outside [add_audio_chunk] the buffer is within the capacity. *)
Definition lock_invariant (max_buffer_samples : Z) (s : shared) : Prop :=
  match ppc s, wpc s with
  | PIdle, WIdle =>
      lock s = None /\
      (buffer s = [] \/ total_samples (buffer s) <= max_buffer_samples)
  | PIdle, WLocked =>
      lock s = Some Worker /\
      (buffer s = [] \/ total_samples (buffer s) <= max_buffer_samples)
  | PIdle, WJoined audio =>
      lock s = Some Worker /\ audio = cat (buffer s) /\ buffer s <> []
  | PIdle, WDrained _ => lock s = Some Worker /\ buffer s = []
  | PLocked _, WIdle => lock s = Some Producer
  | PEvict total, WIdle =>
      lock s = Some Producer /\ total = total_samples (buffer s)
  | _, _ => False
  end.

(** ** The offline segmenter ([vad_utils.py]) *)

Inductive fallible (A : Type) : Type :=
| Ok (a : A)
| Failed (e : exn).

Arguments Ok {A} a.
Arguments Failed {A} e.

(** What a caller can pass as [wav_tensor]: a torch tensor, a NumPy array
    (it has a [shape] but is no [torch.Tensor]), or a plain list (it has no
    [shape] attribute). *)
Inductive py_value : Type :=
| TorchTensor (data : tensor)
| NdArray (data : tensor)
| PyList (data : list Q).

Definition has_shape (v : py_value) : bool :=
  match v with
  | TorchTensor _ | NdArray _ => true
  | PyList _ => false
  end.

Definition is_torch_tensor (v : py_value) : bool :=
  match v with
  | TorchTensor _ => true
  | NdArray _ | PyList _ => false
  end.

Definition data_of (v : py_value) : tensor :=
  match v with
  | TorchTensor d | NdArray d | PyList d => d
  end.

(** Python's [max(a, b)] and [min(a, b)]: the first argument wins a tie. *)
Definition py_max (a b : Q) : Q := if Qgt_bool b a then b else a.
Definition py_min (a b : Q) : Q := if Qgt_bool a b then b else a.

(** The process-wide state read by [get_pipeline]: the cached [_PIPELINE]
    and [os.environ.get("HF_TOKEN")]. *)
Record globals (Pipeline : Type) : Type := {
  _PIPELINE : option Pipeline;
  HF_TOKEN : option string
}.

Arguments _PIPELINE {Pipeline} g.
Arguments HF_TOKEN {Pipeline} g.
Arguments Build_globals {Pipeline} _ _.

(** The variables of the loop of [segment_audio]. *)
Record chunker : Type := {
  segments : list tensor;
  boundaries : list (Q * Q);
  curr_start : Q;
  curr_end : Q;
  curr_duration : Q
}.

Section Offline.

(** pydub and pyannote, as far as [vad_utils.py] uses them.  The calls of
    lines 62-77 can raise; what they raise leaves [segment_audio] as it is,
    so each of them answers a [fallible] value.  What a call answers may
    depend on attributes of the tensor that a list of samples does not
    carry (its dtype, [requires_grad]); nothing below assumes anything
    about these functions. *)
Context {Pipeline AudioSegment : Type}.
(** [Pipeline.from_pretrained("pyannote/voice-activity-detection", token)] *)
Variable from_pretrained : string -> fallible Pipeline.
(** [pipeline({"uri": ..., "audio": audio_bytes})] followed by
    [get_timeline().support()] (lines 77 and 85). *)
Variable support : Pipeline -> AudioSegment -> fallible (list vad_segment).
(** Lines 62-69: [wav_tensor.numpy().tobytes()], [dtype.itemsize], the
    constructor [AudioSegment(bytes, frame_rate, sample_width, channels=1)]
    and the first [len(audio)]. *)
Variable make_audio : tensor -> Z -> fallible AudioSegment.
(** Lines 72-74: [audio.export(audio_bytes, format="wav")]; [Some e] is the
    exception it raised. *)
Variable export : AudioSegment -> option exn.
(** [len(audio)], in milliseconds, of a segment [make_audio] answered. *)
Variable audio_len : AudioSegment -> Z.
(** [audio[start_ms:end_ms]] *)
Variable audio_slice : AudioSegment -> Z -> Z -> AudioSegment.
(** [audio.get_array_of_samples()] *)
Variable get_array_of_samples : AudioSegment -> list Z.

(** [get_pipeline]: the pipeline and the globals it leaves.  When loading
    raises, [_PIPELINE] has not been assigned. *)
Definition get_pipeline (g : globals Pipeline)
  : fallible (Pipeline * globals Pipeline) :=
  match _PIPELINE g with
  | Some p => Ok (p, g)
  | None =>
      match HF_TOKEN g with
      | None => Failed (ValueError "HF_TOKEN environment variable is not set"%string)
      | Some hf_token =>
          match from_pretrained hf_token with
          | Failed e => Failed e
          | Ok p => Ok (p, {| _PIPELINE := Some p; HF_TOKEN := HF_TOKEN g |})
          end
      end
  end.

(** [audiosegment_to_tensor] on a mono segment, the only kind
    [segment_audio] builds. *)
Definition audiosegment_to_tensor (audiosegment : AudioSegment) : tensor :=
  map (fun x => inject_Z x / 32768)%Q (get_array_of_samples audiosegment).

Variable max_duration min_duration new_chunk_threshold : Q.

(** Lines 93-98 and 106-111: cut the current chunk out of the audio and
    keep it when it holds at least one sample. *)
Definition emit (audio : AudioSegment) (c : chunker) : chunker :=
  let start_ms := py_int (curr_start c * 1000) in
  let end_ms := py_int (curr_end c * 1000) in
  let t := audiosegment_to_tensor (audio_slice audio start_ms end_ms) in
  if 0 <? shape0 t then
    {| segments := segments c ++ [t];
       boundaries := boundaries c ++ [(curr_start c, curr_end c)];
       curr_start := curr_start c;
       curr_end := curr_end c;
       curr_duration := curr_duration c |}
  else c.

(** The test of lines 89-91. *)
Definition starts_new_chunk (c : chunker) (start end_ : Q) : bool :=
  (Qgt_bool (curr_duration c) min_duration
   && Qgt_bool (start - curr_end c) new_chunk_threshold)
  || Qgt_bool (curr_duration c + (end_ - curr_end c)) max_duration.

(** The rule in the words of the specification: the chunk accumulated so
    far is longer than [min_duration] and the gap to the segment exceeds
    [new_chunk_threshold], or the chunk extended to the segment's end would
    be longer than [max_duration]. *)
Definition spec_starts_new_chunk (c : chunker) (start end_ : Q) : Prop :=
  ((min_duration < curr_end c - curr_start c)%Q /\
   (new_chunk_threshold < start - curr_end c)%Q) \/
  (max_duration < end_ - curr_start c)%Q.

(** The clamped bounds of a timeline segment (lines 86-87). *)
Definition clamp_start (segment : vad_segment) : Q :=
  py_max 0 (seg_start segment).
Definition clamp_end (audio : AudioSegment) (segment : vad_segment) : Q :=
  py_min (inject_Z (audio_len audio) / 1000) (seg_end segment).

(** One turn of the loop of lines 85-102. *)
Definition segment_step (audio : AudioSegment) (c : chunker)
  (segment : vad_segment) : chunker :=
  let start := clamp_start segment in
  let end_ := clamp_end audio segment in
  let c :=
    if starts_new_chunk c start end_ then
      let c := if Qgt_bool (curr_end c) (curr_start c) then emit audio c
               else c in
      {| segments := segments c;
         boundaries := boundaries c;
         curr_start := start;
         curr_end := curr_end c;
         curr_duration := curr_duration c |}
    else c in
  {| segments := segments c;
     boundaries := boundaries c;
     curr_start := curr_start c;
     curr_end := end_;
     curr_duration := end_ - curr_start c |}.

Definition initial_chunker : chunker :=
  {| segments := [];
     boundaries := [];
     curr_start := 0;
     curr_end := 0;
     curr_duration := 0 |}.

(** The last chunk (lines 105-111). *)
Definition last_chunk (audio : AudioSegment) (c : chunker) : chunker :=
  if negb (Qeq_bool (curr_duration c) 0)
     && Qgt_bool (curr_end c) (curr_start c)
  then emit audio c else c.

(** Lines 79-114, for a given timeline. *)
Definition merge_timeline (audio : AudioSegment) (timeline : list vad_segment)
  : list tensor * list (Q * Q) :=
  let c := last_chunk audio (fold_left (segment_step audio) timeline
                               initial_chunker) in
  (segments c, boundaries c).

(** [segment_audio].  The [print] of line 57 reads [wav_tensor.shape]
    before the type of [wav_tensor] is tested. *)
Definition segment_audio (g : globals Pipeline) (wav_tensor : py_value)
  (sample_rate : Z) : fallible (list tensor * list (Q * Q)) :=
  if negb (has_shape wav_tensor) then Failed AttributeError
  else if negb (is_torch_tensor wav_tensor)
  then Failed (TypeError "wav_tensor must be a torch.Tensor"%string)
  else
    match make_audio (data_of wav_tensor) sample_rate with
    | Failed e => Failed e
    | Ok audio =>
        if audio_len audio <? 1000
        then Failed (ValueError "Audio too short for segmentation"%string)
        else
          match export audio with
          | Some e => Failed e
          | None =>
              match get_pipeline g with
              | Failed e => Failed e
              | Ok (pipeline, _) =>
                  match support pipeline audio with
                  | Failed e => Failed e
                  | Ok timeline => Ok (merge_timeline audio timeline)
                  end
              end
          end
    end.

End Offline.

(** ** Reference collaborators

    Concrete stand-ins for what lies outside the two source files, used to
    evaluate the definitions on examples: the recogniser returns the audio
    it was given, [format_time] keeps the seconds, the n-th clock reading
    is n; an audio segment is its samples with its frame rate, its length
    is in whole milliseconds, and a pipeline is the timeline it answers. *)
Module Reference.

Definition recognize_audio (audio : tensor) : tensor := audio.
Definition format_time (t : Q) : Q := t.
Definition time_time (n : nat) : Q := inject_Z (Z.of_nat n).

Definition AudioSegment : Type := tensor * Z.
Definition Pipeline : Type := list vad_segment.

Definition from_pretrained (hf_token : string) : fallible Pipeline := Ok [].
Definition support (p : Pipeline) (audio : AudioSegment) : list vad_segment := p.
Definition make_audio (data : tensor) (frame_rate : Z) : AudioSegment :=
  (data, frame_rate).
Definition audio_len (audio : AudioSegment) : Z :=
  1000 * shape0 (fst audio) / snd audio.
Definition audio_slice (audio : AudioSegment) (start_ms end_ms : Z)
  : AudioSegment :=
  (slice (start_ms * snd audio / 1000) (end_ms * snd audio / 1000) (fst audio),
   snd audio).
Definition get_array_of_samples (audio : AudioSegment) : list Z :=
  map (fun x => Qfloor (x * 32768)) (fst audio).

(** None of the library calls of lines 62-77 raises here. *)
Definition build_audio (data : tensor) (frame_rate : Z)
  : fallible AudioSegment := Ok (make_audio data frame_rate).
Definition export (audio : AudioSegment) : option exn := None.
Definition apply_pipeline (p : Pipeline) (audio : AudioSegment)
  : fallible (list vad_segment) := Ok (support p audio).

(** [segment_audio] with its default bounds (22 s, 15 s, 0.2 s). *)
Definition segment_audio (g : globals Pipeline) (wav_tensor : py_value)
  (sample_rate : Z) : fallible (list tensor * list (Q * Q)) :=
  segment_audio from_pretrained apply_pipeline build_audio export audio_len
    audio_slice get_array_of_samples 22 15 (2 # 10) g wav_tensor sample_rate.

(** [n] samples of silence. *)
Definition zeros (n : Z) : tensor := repeat 0%Q (Z.to_nat n).

(** A small session: 4 Hz, sub-chunks of 2 samples, a buffer of 1 second,
    1 second of silence closes a run, an interim result every 2 frames. *)
Definition small_config : config :=
  __init__ 4 2 1 (1 # 100) 1 2 true (1 # 2) false false.

Definition run_small (chunks : list (bool * tensor)) (s : @stream tensor Q)
  : outcome (@stream tensor Q) :=
  run_classified recognize_audio format_time time_time small_config chunks s.

(** A pipeline that answers the given timeline, already cached. *)
Definition cached (timeline : list vad_segment) : globals Pipeline :=
  {| _PIPELINE := Some timeline; HF_TOKEN := None |}.

(** No pipeline cached and no [HF_TOKEN] in the environment. *)
Definition no_credentials : globals Pipeline :=
  {| _PIPELINE := None; HF_TOKEN := None |}.

Definition seg (start end_ : Q) : vad_segment :=
  {| seg_start := start; seg_end := end_; seg_score := None |}.

(** The classified loop of a session with the constructor's defaults. *)
Definition run_default (chunks : list (bool * tensor))
  : outcome (@stream tensor Q) :=
  run_classified recognize_audio format_time time_time (default_config false)
    chunks initial_stream.

End Reference.

(** * Facts

    Everything below is proved about the definitions above. *)

(** Splits the conjunctions of the goal, and only those. *)
Ltac conjs := repeat match goal with |- _ /\ _ => split end.

Lemma bind_Return {S : Type} (s : S) (k : S -> outcome S) :
  bind (Return s) k = k s.
Proof. reflexivity. Qed.

(** ** Tensors and buffers *)

Lemma shape0_nonneg (t : tensor) : 0 <= shape0 t.
Proof. unfold shape0. lia. Qed.

Lemma total_samples_app (a b : list tensor) :
  total_samples (a ++ b) = total_samples a + total_samples b.
Proof.
  induction a as [|x a IH]; simpl; [reflexivity|].
  rewrite IH. lia.
Qed.

Lemma total_samples_nonneg (b : list tensor) : 0 <= total_samples b.
Proof.
  induction b as [|x b IH]; simpl; [lia|].
  pose proof (shape0_nonneg x). lia.
Qed.

Lemma shape0_cat (b : list tensor) : shape0 (cat b) = total_samples b.
Proof.
  unfold cat, shape0.
  induction b as [|x b IH]; simpl; [reflexivity|].
  rewrite length_app, Nat2Z.inj_add, IH. reflexivity.
Qed.

(** ** The eviction loop *)

(** The loop is entered with [total] equal to the number of buffered
    samples, and keeps it so. *)
Lemma evict_returns (m : Z) (buffer b' : list tensor) :
  evict m (total_samples buffer) buffer = Return b' ->
  total_samples b' <= m /\ exists n, b' = skipn n buffer.
Proof.
  induction buffer as [|x buffer IH]; simpl.
  - destruct (m <? 0) eqn:E; [discriminate|].
    intros [= <-]. split; [simpl; lia|]. exists O. reflexivity.
  - destruct (m <? shape0 x + total_samples buffer) eqn:E.
    + replace (shape0 x + total_samples buffer - shape0 x)
        with (total_samples buffer) by lia.
      intros H. destruct (IH H) as [Hle [n Hn]].
      split; [exact Hle|]. exists (S n). exact Hn.
    + intros [= <-]. split; [simpl; lia|]. exists O. reflexivity.
Qed.

Lemma evict_raises (m : Z) (buffer b' : list tensor) (e : exn) :
  evict m (total_samples buffer) buffer = Raise e b' ->
  e = IndexError /\ b' = [] /\ m < 0.
Proof.
  induction buffer as [|x buffer IH]; simpl.
  - destruct (m <? 0) eqn:E; [|discriminate].
    intros [= <- <-]. repeat split. lia.
  - destruct (m <? shape0 x + total_samples buffer) eqn:E; [|discriminate].
    replace (shape0 x + total_samples buffer - shape0 x)
      with (total_samples buffer) by lia.
    exact IH.
Qed.

(** With a capacity that is not negative the loop always ends normally. *)
Lemma evict_total (m : Z) (buffer : list tensor) :
  0 <= m -> exists b', evict m (total_samples buffer) buffer = Return b'.
Proof.
  intros Hm. destruct (evict m (total_samples buffer) buffer) as [b'|e b'] eqn:E.
  - exists b'. reflexivity.
  - apply evict_raises in E. lia.
Qed.

(** A buffer whose last chunk alone exceeds the capacity is emptied. *)
Lemma evict_oversized (m : Z) (buffer : list tensor) (last : tensor) :
  m < shape0 last ->
  state_of (evict m (total_samples (buffer ++ [last])) (buffer ++ [last])) = [].
Proof.
  intros Hlast. induction buffer as [|x buffer IH]; simpl.
  - replace (shape0 last + 0) with (shape0 last) by lia.
    destruct (m <? shape0 last) eqn:E; [|lia].
    replace (shape0 last - shape0 last) with 0 by lia.
    simpl. destruct (m <? 0); reflexivity.
  - pose proof (total_samples_nonneg (buffer ++ [last])) as Hn.
    pose proof (shape0_nonneg x) as Hx.
    assert (Hl : shape0 last <= total_samples (buffer ++ [last])).
    { rewrite total_samples_app. simpl. pose proof (total_samples_nonneg buffer). lia. }
    destruct (m <? shape0 x + total_samples (buffer ++ [last])) eqn:E; [|lia].
    replace (shape0 x + total_samples (buffer ++ [last]) - shape0 x)
      with (total_samples (buffer ++ [last])) by lia.
    exact IH.
Qed.

(** ** Amplitude normalisation *)

Lemma fold_qmax_witness (rest : tensor) (m0 : Q) :
  let m := fold_left (fun m y => qmax m (Qabs y)) rest m0 in
  m = m0 \/ exists x, In x rest /\ Qabs x = m.
Proof.
  revert m0. induction rest as [|y rest IH]; intros m0; simpl.
  - left. reflexivity.
  - destruct (IH (qmax m0 (Qabs y))) as [H | [x [Hin Hx]]].
    + rewrite H. unfold qmax. destruct (Qle_bool m0 (Qabs y)).
      * right. exists y. split; [left; reflexivity | reflexivity].
      * left. reflexivity.
    + right. exists x. split; [right; exact Hin | exact Hx].
Qed.

(** The peak is the absolute value of one of the samples. *)
Lemma abs_max_attained (t : tensor) (peak : Q) :
  abs_max t = Some peak -> exists x, In x t /\ Qabs x = peak.
Proof.
  destruct t as [|x rest]; simpl; [discriminate|].
  intros [= <-].
  destruct (fold_qmax_witness rest (Qabs x)) as [H | [y [Hin Hy]]].
  - exists x. split; [left; reflexivity | symmetry; exact H].
  - exists y. split; [right; exact Hin | exact Hy].
Qed.

Lemma map_fixes_elements {A : Type} (f : A -> A) (l : list A) :
  map f l = l -> forall x, In x l -> f x = x.
Proof.
  induction l as [|a l IH]; simpl; intros H x Hin; [contradiction|].
  injection H as Ha Hl. destruct Hin as [<- | Hin]; [exact Ha | exact (IH Hl x Hin)].
Qed.

Lemma Qgt_bool_true (x y : Q) : Qgt_bool x y = true <-> (y < x)%Q.
Proof.
  unfold Qgt_bool. rewrite negb_true_iff.
  split.
  - intros H. apply Qnot_le_lt. intros Hle.
    apply Qle_bool_iff in Hle. congruence.
  - intros H. destruct (Qle_bool x y) eqn:E; [|reflexivity].
    apply Qle_bool_iff in E. exfalso. exact (Qlt_not_le _ _ H E).
Qed.

Lemma Qgt_bool_false (x y : Q) : Qgt_bool x y = false <-> (x <= y)%Q.
Proof.
  unfold Qgt_bool. rewrite negb_false_iff. apply Qle_bool_iff.
Qed.

(** Dividing by a peak above one moves every sample that is not zero. *)
Lemma scale_moves_peak (x peak : Q) :
  (1 < peak)%Q -> Qabs x = peak -> (x / peak)%Q <> x.
Proof.
  intros Hp Hx Heq.
  assert (Hpos : (0 < peak)%Q) by (eapply Qlt_trans; [|exact Hp]; reflexivity).
  assert (Hne : ~ (peak == 0)%Q).
  { intros H0. rewrite H0 in Hpos. exact (Qlt_irrefl _ Hpos). }
  assert (Hq : (x / peak == x)%Q) by (rewrite Heq; reflexivity).
  assert (Hm : (x == x * peak)%Q).
  { transitivity (x / peak * peak)%Q.
    - field. exact Hne.
    - rewrite Hq. reflexivity. }
  assert (Hax : (Qabs x == Qabs x * peak)%Q).
  { rewrite Hm at 1. rewrite Qabs_Qmult.
    rewrite (Qabs_pos peak) by (apply Qlt_le_weak; exact Hpos). reflexivity. }
  rewrite Hx in Hax.
  assert (H1 : (peak * 1 < peak * peak)%Q).
  { apply Qmult_lt_l; assumption. }
  rewrite Qmult_1_r in H1. rewrite <- Hax in H1.
  exact (Qlt_irrefl _ H1).
Qed.

Lemma scale_by_changes (t : tensor) (peak : Q) :
  abs_max t = Some peak -> (1 < peak)%Q -> scale_by peak t <> t.
Proof.
  intros Hmax Hp Heq.
  destruct (abs_max_attained _ _ Hmax) as [x [Hin Hx]].
  apply (scale_moves_peak _ _ Hp Hx).
  exact (@map_fixes_elements Q (fun y => (y / peak)%Q) t Heq x Hin).
Qed.

Lemma shape0_scale_by (peak : Q) (t : tensor) : shape0 (scale_by peak t) = shape0 t.
Proof. unfold shape0, scale_by. rewrite length_map. reflexivity. Qed.

Lemma normalize_shape (chunk stored : tensor) :
  normalize chunk = Some stored -> shape0 stored = shape0 chunk.
Proof.
  unfold normalize. destruct (abs_max chunk) as [peak|]; [|discriminate].
  intros [= <-]. destruct (Qgt_bool peak 1); [apply shape0_scale_by | reflexivity].
Qed.

Lemma normalize_some (chunk : tensor) :
  chunk <> [] -> exists stored, normalize chunk = Some stored.
Proof.
  intros Hne. unfold normalize. destruct chunk as [|x rest]; [congruence|].
  simpl. eexists. reflexivity.
Qed.

(** ** The ingestor: [add_audio_chunk], drain, [reset] *)

Lemma qmax_lub (a b : Q) : (a <= qmax a b)%Q /\ (b <= qmax a b)%Q.
Proof.
  unfold qmax. destruct (Qle_bool a b) eqn:E.
  - split; [apply Qle_bool_iff; exact E | apply Qle_refl].
  - split; [apply Qle_refl|]. apply Qlt_le_weak, Qnot_le_lt. intro H.
    apply Qle_bool_iff in H. congruence.
Qed.

Lemma fold_qmax_bound (rest : tensor) (m0 : Q) :
  let m := fold_left (fun m y => qmax m (Qabs y)) rest m0 in
  (m0 <= m)%Q /\ forall x, In x rest -> (Qabs x <= m)%Q.
Proof.
  revert m0. induction rest as [|y rest IH]; intros m0; cbn.
  - split; [apply Qle_refl | intros x []].
  - destruct (IH (qmax m0 (Qabs y))) as [H1 H2].
    destruct (qmax_lub m0 (Qabs y)) as [Ha Hb].
    split; [eapply Qle_trans; eassumption|].
    intros x [<-|Hx]; [eapply Qle_trans; eassumption | apply H2; exact Hx].
Qed.

Lemma abs_max_bound (t : tensor) (peak : Q) :
  abs_max t = Some peak -> forall x, In x t -> (Qabs x <= peak)%Q.
Proof.
  destruct t as [|x0 rest]; [discriminate|]. intros [= <-] x [<-|Hx].
  - exact (proj1 (fold_qmax_bound rest (Qabs x0))).
  - exact (proj2 (fold_qmax_bound rest (Qabs x0)) x Hx).
Qed.

Lemma Qabs_div_le_1 (x peak : Q) :
  (1 < peak)%Q -> (Qabs x <= peak)%Q -> (Qabs (x / peak) <= 1)%Q.
Proof.
  intros Hp Hx.
  assert (H0 : (0 < peak)%Q) by (eapply Qlt_trans; [|exact Hp]; reflexivity).
  unfold Qdiv. rewrite Qabs_Qmult.
  rewrite (Qabs_pos (/ peak)) by (apply Qinv_le_0_compat, Qlt_le_weak, H0).
  apply Qle_shift_div_r; [exact H0|]. rewrite Qmult_1_l. exact Hx.
Qed.

Lemma Qabs_div_peak (x peak : Q) :
  (1 < peak)%Q -> Qabs x = peak -> (Qabs (x / peak) == 1)%Q.
Proof.
  intros Hp Hx.
  assert (H0 : (0 < peak)%Q) by (eapply Qlt_trans; [|exact Hp]; reflexivity).
  unfold Qdiv. rewrite Qabs_Qmult.
  rewrite (Qabs_pos (/ peak)) by (apply Qinv_le_0_compat, Qlt_le_weak, H0).
  rewrite Hx. apply Qmult_inv_r. intros E. rewrite E in H0.
  exact (Qlt_irrefl 0 H0).
Qed.

Section IngestorFacts.

Context {Text Stamp : Type}.
Variable cfg : config.

Abbreviation session := (@stream Text Stamp).
Abbreviation within_capacity := (@within_capacity Text Stamp cfg).

Lemma apply_ops_app (a b : list buffer_op) (s : session) :
  apply_ops cfg (a ++ b) s = bind (apply_ops cfg a s) (apply_ops cfg b).
Proof.
  revert s. induction a as [|o a IH]; intros s; simpl; [reflexivity|].
  destruct (apply_op cfg o s) as [s1|e s1]; simpl; [apply IH | reflexivity].
Qed.

(** What one returning call of [add_audio_chunk] leaves in the buffer. *)
Lemma add_audio_chunk_returns (chunk : tensor) (s s' : session) :
  add_audio_chunk cfg chunk s = Return s' ->
  total_samples (audio_buffer s') <= max_buffer_samples cfg /\
  exists stored n,
    normalize chunk = Some stored /\
    audio_buffer s' = skipn n (audio_buffer s ++ [stored]).
Proof.
  unfold add_audio_chunk.
  destruct (normalize chunk) as [stored|] eqn:En; [|discriminate].
  destruct (evict _ _ _) as [b|e b] eqn:Ee; [|discriminate].
  intros [= <-]. simpl.
  destruct (evict_returns _ _ _ Ee) as [Hle [n Hn]].
  split; [exact Hle|]. exists stored, n. split; [reflexivity | exact Hn].
Qed.


Lemma apply_op_within (o : buffer_op) (s s' : session) :
  within_capacity s -> apply_op cfg o s = Return s' -> within_capacity s'.
Proof.
  intros Hs. destruct o as [chunk| |]; simpl.
  - intros H. right. exact (proj1 (add_audio_chunk_returns _ _ _ H)).
  - intros [= <-]. unfold drain_all.
    destruct (audio_buffer s) eqn:E; [exact Hs | left; reflexivity].
  - intros [= <-]. left. reflexivity.
Qed.

Lemma apply_ops_within (ops : list buffer_op) (s s' : session) :
  within_capacity s -> apply_ops cfg ops s = Return s' -> within_capacity s'.
Proof.
  revert s. induction ops as [|o ops IH]; intros s Hs; simpl.
  - intros [= <-]. exact Hs.
  - destruct (apply_op cfg o s) as [s1|e s1] eqn:E; simpl; [|discriminate].
    apply IH. exact (apply_op_within _ _ _ Hs E).
Qed.

Lemma initial_within : within_capacity (@initial_stream Text Stamp).
Proof. left. reflexivity. Qed.

(** C2.  After any history of appends, drains and resets, a call of
    [add_audio_chunk] that returns leaves at most [max_buffer_samples]
    samples in the buffer, and what it leaves is the buffer it found, with
    the new (normalised) chunk appended, minus a number of whole chunks
    taken from the front. *)
Theorem add_audio_chunk_capacity (ops : list buffer_op) (chunk : tensor)
  (s' : session) :
  apply_ops cfg (ops ++ [OpAppend chunk]) (@initial_stream Text Stamp)
    = Return s' ->
  total_samples (audio_buffer s') <= max_buffer_samples cfg /\
  exists (s : session) (stored : tensor) (n : nat),
    apply_ops cfg ops (@initial_stream Text Stamp) = Return s /\
    normalize chunk = Some stored /\
    audio_buffer s' = skipn n (audio_buffer s ++ [stored]).
Proof.
  rewrite apply_ops_app.
  destruct (apply_ops cfg ops (@initial_stream Text Stamp)) as [s|e s] eqn:E;
    simpl; [|discriminate].
  destruct (add_audio_chunk cfg chunk s) as [s1|e s1] eqn:Ea; simpl;
    [|discriminate].
  intros [= <-].
  destruct (add_audio_chunk_returns _ _ _ Ea) as [Hle [stored [n [Hn Hb]]]].
  split; [exact Hle|]. exists s, stored, n. auto.
Qed.

(** C8.  [add_audio_chunk] rescales a chunk exactly when its peak, the
    largest absolute value among its samples, exceeds 1.0.  In that case
    the chunk it appends holds every sample divided by the peak, in the
    same order: all of them lie within [-1, 1], one has absolute value 1,
    and at least one sample has changed its value.  When the peak is at
    most 1.0 the chunk is appended as it is.  The buffer left is the old
    buffer with that chunk appended, minus the evicted front; nothing is
    evicted when the capacity is not exceeded. *)
Theorem add_audio_chunk_normalization (chunk : tensor) (peak : Q)
  (s : session) :
  abs_max chunk = Some peak ->
  ((exists x, In x chunk /\ Qabs x = peak) /\
   (forall x, In x chunk -> (Qabs x <= peak)%Q)) /\
  exists (stored : tensor) (n : nat),
    audio_buffer (state_of (add_audio_chunk cfg chunk s))
      = skipn n (audio_buffer s ++ [stored]) /\
    ((1 < peak)%Q ->
     stored = map (fun x => (x / peak)%Q) chunk /\
     Forall (fun y => (Qabs y <= 1)%Q) stored /\
     (exists y, In y stored /\ (Qabs y == 1)%Q) /\
     (exists x, In x chunk /\ ~ (x / peak == x)%Q) /\
     stored <> chunk) /\
    ((peak <= 1)%Q -> stored = chunk) /\
    (total_samples (audio_buffer s) + shape0 chunk <= max_buffer_samples cfg
     -> n = O).
Proof.
  intros Hmax.
  split; [split; [exact (abs_max_attained chunk peak Hmax)
                 | exact (abs_max_bound chunk peak Hmax)]|].
  unfold add_audio_chunk, normalize. rewrite Hmax.
  set (stored := if Qgt_bool peak 1 then scale_by peak chunk else chunk).
  assert (Hshape : shape0 stored = shape0 chunk).
  { unfold stored. destruct (Qgt_bool peak 1);
      [apply shape0_scale_by | reflexivity]. }
  assert (Hgt : (1 < peak)%Q ->
            stored = map (fun x => (x / peak)%Q) chunk /\
            Forall (fun y => (Qabs y <= 1)%Q) stored /\
            (exists y, In y stored /\ (Qabs y == 1)%Q) /\
            (exists x, In x chunk /\ ~ (x / peak == x)%Q) /\
            stored <> chunk).
  { intros Hp.
    assert (Hs : stored = map (fun x => (x / peak)%Q) chunk).
    { unfold stored. rewrite (proj2 (Qgt_bool_true peak 1) Hp).
      reflexivity. }
    destruct (abs_max_attained chunk peak Hmax) as [x [Hx Hpk]].
    pose proof (Qabs_div_peak x peak Hp Hpk) as H1.
    split; [exact Hs|]. split; [|split; [|split]].
    - rewrite Hs. apply Forall_forall. intros y Hy.
      apply in_map_iff in Hy. destruct Hy as [x0 [<- Hx0]].
      apply Qabs_div_le_1;
        [exact Hp | exact (abs_max_bound chunk peak Hmax x0 Hx0)].
    - exists (x / peak)%Q. split; [|exact H1].
      rewrite Hs. apply in_map_iff. exists x. split; [reflexivity | exact Hx].
    - exists x. split; [exact Hx|]. intros E.
      assert (E' : (Qabs (x / peak) == Qabs x)%Q) by (rewrite E; reflexivity).
      rewrite H1, Hpk in E'. rewrite <- E' in Hp.
      exact (Qlt_irrefl 1 Hp).
    - rewrite Hs. exact (scale_by_changes _ _ Hmax Hp). }
  assert (Hle : (peak <= 1)%Q -> stored = chunk).
  { intros Hp. unfold stored.
    rewrite (proj2 (Qgt_bool_false peak 1) Hp). reflexivity. }
  destruct (evict (max_buffer_samples cfg)
              (total_samples (audio_buffer s ++ [stored]))
              (audio_buffer s ++ [stored])) as [b|e b] eqn:Ee; simpl.
  - destruct (evict_returns _ _ _ Ee) as [_ [n Hn]].
    destruct (max_buffer_samples cfg
              <? total_samples (audio_buffer s ++ [stored])) eqn:Ecap.
    + exists stored, n.
      split; [exact Hn|]. split; [exact Hgt|]. split; [exact Hle|].
      intros Hfit. rewrite total_samples_app in Ecap. simpl in Ecap. lia.
    + exists stored, O.
      split; [|split; [exact Hgt|split; [exact Hle|reflexivity]]].
      simpl. destruct (audio_buffer s ++ [stored]) as [|c l] eqn:Eb.
      * simpl in Ee. destruct (max_buffer_samples cfg <? 0); congruence.
      * simpl in Ee. simpl in Ecap. rewrite Ecap in Ee. congruence.
  - destruct (evict_raises _ _ _ _ Ee) as [_ [-> Hneg]].
    exists stored, (length (audio_buffer s ++ [stored])).
    split; [rewrite skipn_all; reflexivity|].
    split; [exact Hgt|]. split; [exact Hle|].
    intros Hfit. pose proof (total_samples_nonneg (audio_buffer s)).
    pose proof (shape0_nonneg chunk). lia.
Qed.

(** C10.  In a session reached by any history of appends, drains and
    resets, a chunk with more samples than [max_buffer_samples] leaves the
    buffer empty: the eviction loop pops every chunk, the new one included.
    The call returns normally exactly when the capacity is not negative. *)
Theorem add_audio_chunk_oversized (ops : list buffer_op) (chunk : tensor)
  (s : session) :
  apply_ops cfg ops (@initial_stream Text Stamp) = Return s ->
  max_buffer_samples cfg < shape0 chunk ->
  audio_buffer (state_of (add_audio_chunk cfg chunk s)) = [] /\
  returns (add_audio_chunk cfg chunk s) = (0 <=? max_buffer_samples cfg).
Proof.
  intros Hreach Hbig.
  pose proof (apply_ops_within ops _ _ initial_within Hreach) as Hinv.
  unfold add_audio_chunk.
  destruct (normalize chunk) as [stored|] eqn:En.
  - pose proof (normalize_shape _ _ En) as Hshape.
    assert (Hbig' : max_buffer_samples cfg < shape0 stored) by lia.
    pose proof (evict_oversized _ (audio_buffer s) stored Hbig') as Hempty.
    destruct (evict _ _ _) as [b|e b] eqn:Ee; simpl in *.
    + split; [exact Hempty|].
      destruct (evict_returns _ _ _ Ee) as [Hle _]. subst b. simpl in Hle.
      symmetry. apply Z.leb_le. exact Hle.
    + split; [exact Hempty|].
      destruct (evict_raises _ _ _ _ Ee) as [_ [_ Hneg]].
      symmetry. apply Z.leb_gt. exact Hneg.
  - simpl. unfold normalize in En.
    destruct chunk as [|x rest]; [|simpl in En; discriminate].
    simpl in Hbig. unfold shape0 in Hbig. simpl in Hbig.
    split.
    + destruct Hinv as [Hb | Hb]; [exact Hb|].
      pose proof (total_samples_nonneg (audio_buffer s)). lia.
    + symmetry. apply Z.leb_gt. exact Hbig.
Qed.


(** C5.  [reset] is idempotent; it empties the audio buffer, the run state
    (speaking flag, silence counter, speaking buffer), the VAD window and
    the interim results, and keeps the final results. *)
Theorem reset_idempotent (s : session) :
  reset (reset s) = reset s /\
  audio_buffer (reset s) = [] /\
  is_speaking (reset s) = false /\
  silence_counter (reset s) = 0 /\
  speaking_buffer (reset s) = [] /\
  vad_buffer (reset s) = [] /\
  interim_results (reset s) = [] /\
  final_results (reset s) = final_results s /\
  final_results (reset (reset s)) = final_results s.
Proof. repeat split. Qed.

End IngestorFacts.

(** ** The segmentation loop *)

Section LoopFacts.

Context {Text Stamp : Type}.
Variable recognize_audio : tensor -> Text.
Variable format_time : Q -> Stamp.
Variable time_time : nat -> Q.
Variable cfg : config.

Abbreviation session := (@stream Text Stamp).
Abbreviation step := (on_subchunk recognize_audio format_time time_time cfg).
Abbreviation run := (run_classified recognize_audio format_time time_time cfg).
Abbreviation interim :=
  (_perform_interim_recognition recognize_audio format_time time_time cfg).
Abbreviation finalize :=
  (_finalize_speech_segment recognize_audio format_time time_time cfg).
Abbreviation result_of := (make_result recognize_audio format_time cfg).


Lemma run_app (a b : list (bool * tensor)) (s : session) :
  run (a ++ b) s = bind (run a s) (run b).
Proof.
  revert s. induction a as [|[f c] a IH]; intros s; simpl; [reflexivity|].
  destruct (step f c s) as [s1|e s1]; simpl; [apply IH | reflexivity].
Qed.

(** The state in which a speech sub-chunk leaves the run, before the
    stabilisation test. *)
Lemma speech_run_state (subchunk : tensor) (s : session) :
  (if negb (is_speaking s) then set_run true 0 [subchunk] s
   else set_run true 0 (speaking_buffer s ++ [subchunk]) s)
  = set_run true 0 (run_buffer s ++ [subchunk]) s.
Proof. unfold run_buffer. destruct (is_speaking s); reflexivity. Qed.

Lemma interim_returns (s : session) :
  speaking_buffer s <> [] -> sample_rate cfg <> 0 ->
  exists s',
    interim s = Return s' /\
    interim_results s' =
      interim_results s
      ++ [result_of false (cat (speaking_buffer s)) (time_time (clock_reads s))] /\
    final_results s' = final_results s /\
    is_speaking s' = is_speaking s /\
    silence_counter s' = silence_counter s /\
    speaking_buffer s' = speaking_buffer s /\
    running s' = running s /\
    clock_reads s' = S (clock_reads s).
Proof.
  intros Hb Hsr. unfold _perform_interim_recognition.
  destruct (speaking_buffer s) as [|c b] eqn:E; [congruence|].
  simpl. destruct (sample_rate cfg =? 0) eqn:Er; [lia|].
  eexists. split; [reflexivity|]. simpl. rewrite E. repeat split.
Qed.

Lemma finalize_returns (s : session) :
  speaking_buffer s <> [] -> sample_rate cfg <> 0 ->
  exists s',
    finalize s = Return s' /\
    final_results s' =
      final_results s
      ++ [result_of true (cat (speaking_buffer s)) (time_time (clock_reads s))] /\
    interim_results s' = interim_results s /\
    is_speaking s' = false /\
    silence_counter s' = 0 /\
    speaking_buffer s' = [] /\
    vad_buffer s' = [] /\
    running s' = running s /\
    clock_reads s' = S (clock_reads s).
Proof.
  intros Hb Hsr. unfold _finalize_speech_segment.
  destruct (speaking_buffer s) as [|c b] eqn:E; [congruence|].
  simpl. destruct (sample_rate cfg =? 0) eqn:Er; [lia|].
  eexists. split; [reflexivity|]. simpl. repeat split.
Qed.

(** One speech sub-chunk: the run grows by it, the silence counter is
    cleared, no final result appears, and an interim result appears exactly
    when the new length of the run is a multiple of
    [stabilization_frames]. *)
Lemma speech_step (subchunk : tensor) (s : session) :
  stabilization_frames cfg <> 0 -> sample_rate cfg <> 0 ->
  exists s',
    step true subchunk s = Return s' /\
    is_speaking s' = true /\
    silence_counter s' = 0 /\
    speaking_buffer s' = run_buffer s ++ [subchunk] /\
    final_results s' = final_results s /\
    running s' = running s /\
    (Z.of_nat (length (speaking_buffer s')) mod stabilization_frames cfg = 0 ->
     interim_results s' =
       interim_results s
       ++ [result_of false (cat (speaking_buffer s'))
             (time_time (clock_reads s))] /\
     clock_reads s' = S (clock_reads s)) /\
    (Z.of_nat (length (speaking_buffer s')) mod stabilization_frames cfg <> 0 ->
     interim_results s' = interim_results s /\
     clock_reads s' = clock_reads s).
Proof.
  intros Hsf Hsr. unfold on_subchunk. rewrite speech_run_state.
  set (s1 := set_run true 0 (run_buffer s ++ [subchunk]) s).
  destruct (stabilization_frames cfg =? 0) eqn:Ez; [lia|].
  assert (Hb : speaking_buffer s1 <> []).
  { simpl. destruct (run_buffer s); discriminate. }
  destruct (Z.of_nat (length (speaking_buffer s1)) mod stabilization_frames cfg =? 0)
    eqn:Em.
  - destruct (interim_returns s1 Hb Hsr)
      as [s' [Hi [Hint [Hfin [Hsp [Hsil [Hbuf [Hrun Hclk]]]]]]]].
    exists s'. split; [exact Hi|]. rewrite Hsp, Hsil, Hbuf, Hfin, Hrun.
    conjs; try reflexivity.
    + intros _. split; [exact Hint | exact Hclk].
    + intros Hne. apply Z.eqb_eq in Em. simpl in Em, Hne. contradiction.
  - exists s1. split; [reflexivity|]. conjs; try reflexivity.
    + intros H0. apply Z.eqb_neq in Em. simpl in Em, H0. contradiction.
    + intros _. split; reflexivity.
Qed.

Lemma run_buffer_set_run (b : list tensor) (z : Z) (s : session) :
  run_buffer (set_run true z b s) = b.
Proof. reflexivity. Qed.

Lemma set_run_set_run (f f' : bool) (z z' : Z) (b b' : list tensor)
  (s : session) :
  set_run f z b (set_run f' z' b' s) = set_run f z b s.
Proof. reflexivity. Qed.

(** Speech sub-chunks that bring the run to no multiple of
    [stabilization_frames] only extend the run. *)
Lemma quiet_speech (chunks : list tensor) (s : session) :
  stabilization_frames cfg <> 0 ->
  chunks <> [] ->
  (forall i, 1 <= i <= Z.of_nat (length chunks) ->
     (Z.of_nat (length (run_buffer s)) + i) mod stabilization_frames cfg <> 0) ->
  run (speech chunks) s = Return (set_run true 0 (run_buffer s ++ chunks) s).
Proof.
  intros Hsf. revert s. induction chunks as [|c chunks IH]; intros s Hne Hq;
    [congruence|].
  simpl. unfold on_subchunk. rewrite speech_run_state.
  destruct (stabilization_frames cfg =? 0) eqn:Ez; [lia|].
  set (s1 := set_run true 0 (run_buffer s ++ [c]) s).
  assert (Hlen : Z.of_nat (length (speaking_buffer s1))
                 = Z.of_nat (length (run_buffer s)) + 1).
  { simpl. rewrite length_app. simpl. lia. }
  destruct (Z.of_nat (length (speaking_buffer s1)) mod stabilization_frames cfg =? 0)
    eqn:Em.
  - apply Z.eqb_eq in Em. rewrite Hlen in Em.
    exfalso. apply (Hq 1); [simpl length; lia | exact Em].
  - simpl. destruct chunks as [|c' chunks'].
    + reflexivity.
    + rewrite IH; [| discriminate |].
      * unfold s1. rewrite run_buffer_set_run, set_run_set_run.
        rewrite <- app_assoc. reflexivity.
      * intros i Hi. unfold s1. rewrite run_buffer_set_run.
        rewrite length_app. simpl length.
        replace (Z.of_nat (length (run_buffer s) + 1) + i)
          with (Z.of_nat (length (run_buffer s)) + (i + 1)) by lia.
        apply Hq. simpl length in *. lia.
Qed.

(** A block of [stabilization_frames] speech sub-chunks that starts on a
    multiple produces one interim result, at its last sub-chunk. *)
Lemma speech_block (chunks : list tensor) (s : session) :
  0 < stabilization_frames cfg -> sample_rate cfg <> 0 ->
  Z.of_nat (length chunks) = stabilization_frames cfg ->
  Z.of_nat (length (run_buffer s)) mod stabilization_frames cfg = 0 ->
  exists s',
    run (speech chunks) s = Return s' /\
    is_speaking s' = true /\
    speaking_buffer s' = run_buffer s ++ chunks /\
    final_results s' = final_results s /\
    interim_results s' =
      interim_results s
      ++ [result_of false (cat (run_buffer s ++ chunks))
            (time_time (clock_reads s))] /\
    clock_reads s' = S (clock_reads s).
Proof.
  intros Hsf Hsr Hlen Hm.
  destruct (exists_last (l := chunks)) as [front [last ->]].
  { intros ->. simpl in Hlen. lia. }
  rewrite length_app in Hlen. simpl in Hlen.
  unfold speech. rewrite map_app, run_app. fold (speech front).
  assert (Hstep : forall s0 : session,
    run_buffer s0 = run_buffer s ++ front ->
    final_results s0 = final_results s ->
    interim_results s0 = interim_results s ->
    clock_reads s0 = clock_reads s ->
    exists s',
      run (map (pair true) [last]) s0 = Return s' /\
      is_speaking s' = true /\
      speaking_buffer s' = run_buffer s ++ front ++ [last] /\
      final_results s' = final_results s /\
      interim_results s' =
        interim_results s
        ++ [result_of false (cat (run_buffer s ++ front ++ [last]))
              (time_time (clock_reads s))] /\
      clock_reads s' = S (clock_reads s)).
  { intros s0 Hb0 Hf0 Hi0 Hc0.
    change (run (map (pair true) [last]) s0)
      with (bind (step true last s0) (run [])).
    destruct (speech_step last s0) as [s' [Hs' [Hsp [_ [Hbuf [Hfin [_ [Hyes _]]]]]]]];
      [lia | exact Hsr |].
    rewrite Hs'. simpl. exists s'.
    rewrite Hbuf, Hb0 in *. rewrite <- app_assoc in *.
    destruct Hyes as [Hint Hclk].
    { rewrite !length_app. simpl length.
      replace (Z.of_nat (length (run_buffer s) + (length front + 1)))
        with (Z.of_nat (length (run_buffer s)) + stabilization_frames cfg * 1)
        by lia.
      rewrite Z.mul_comm, Z.mod_add by lia. exact Hm. }
    conjs; try congruence. }
  destruct front as [|c front'].
  - change (run (speech []) s) with (Return s). rewrite bind_Return.
    rewrite app_nil_r in Hstep. apply Hstep; reflexivity.
  - rewrite quiet_speech; [| lia | discriminate |].
    + rewrite bind_Return. apply Hstep; reflexivity.
    + intros i Hi.
      apply Z.mod_divide in Hm; [|lia]. destruct Hm as [q Hq]. rewrite Hq.
      rewrite Z.add_comm, Z.mod_add by lia.
      rewrite Z.mod_small by lia. lia.
Qed.

(** Speech never adds a final result, whatever else happens. *)
Lemma speech_step_finals (subchunk : tensor) (s : session) :
  final_results (state_of (step true subchunk s)) = final_results s.
Proof.
  unfold on_subchunk. rewrite speech_run_state.
  set (s1 := set_run true 0 (run_buffer s ++ [subchunk]) s).
  destruct (stabilization_frames cfg =? 0); [reflexivity|].
  destruct (_ mod _ =? 0); [|reflexivity].
  unfold _perform_interim_recognition.
  destruct (speaking_buffer s1); [reflexivity|].
  simpl. destruct (sample_rate cfg =? 0); reflexivity.
Qed.

Lemma speech_finals (chunks : list tensor) (s : session) :
  final_results (state_of (run (speech chunks) s)) = final_results s.
Proof.
  revert s. induction chunks as [|c chunks IH]; intros s; [reflexivity|].
  change (run (speech (c :: chunks)) s)
    with (bind (step true c s) (run (speech chunks))).
  pose proof (speech_step_finals c s) as Hc.
  destruct (step true c s) as [s1|e s1]; simpl in *.
  - rewrite IH. exact Hc.
  - exact Hc.
Qed.

(** After speech the session is speaking, with the sub-chunks appended to
    the run and no final result added. *)
Lemma speech_phase (chunks : list tensor) (s : session) :
  stabilization_frames cfg <> 0 -> sample_rate cfg <> 0 ->
  chunks <> [] ->
  exists s',
    run (speech chunks) s = Return s' /\
    is_speaking s' = true /\
    silence_counter s' = 0 /\
    speaking_buffer s' = run_buffer s ++ chunks /\
    final_results s' = final_results s.
Proof.
  intros Hsf Hsr. revert s.
  induction chunks as [|c chunks IH]; intros s Hne; [congruence|].
  change (run (speech (c :: chunks)) s)
    with (bind (step true c s) (run (speech chunks))).
  destruct (speech_step c s Hsf Hsr)
    as [s1 [Hs1 [Hsp [Hsil [Hbuf [Hfin _]]]]]].
  rewrite Hs1, bind_Return.
  destruct chunks as [|c' chunks'].
  - exists s1. conjs; auto.
  - destruct (IH s1) as [s' [Hs' [Hsp' [Hsil' [Hbuf' Hfin']]]]]; [discriminate|].
    exists s'. conjs; auto.
    + rewrite Hbuf'. unfold run_buffer at 1. rewrite Hsp, Hbuf.
      rewrite <- app_assoc. reflexivity.
    + congruence.
Qed.

(** Silence outside a run does nothing. *)
Lemma silence_idle (chunks : list tensor) (s : session) :
  is_speaking s = false -> run (silence chunks) s = Return s.
Proof.
  intros Hidle. induction chunks as [|c chunks IH]; [reflexivity|].
  change (run (silence (c :: chunks)) s)
    with (bind (step false c s) (run (silence chunks))).
  unfold on_subchunk. rewrite Hidle. rewrite bind_Return. exact IH.
Qed.

(** Silence inside a run: the sub-chunks [wait] leave the counter below
    [min_silence_samples], the sub-chunk [closing] brings it there; the run
    is finalised with all of them, and the rest of the silence is ignored. *)
Lemma silence_phase (wait : list tensor) (closing : tensor)
  (rest : list tensor) (s : session) :
  sample_rate cfg <> 0 ->
  is_speaking s = true ->
  (wait <> [] ->
   silence_counter s + total_samples wait < min_silence_samples cfg) ->
  min_silence_samples cfg
    <= silence_counter s + total_samples (wait ++ [closing]) ->
  exists s',
    run (silence (wait ++ closing :: rest)) s = Return s' /\
    is_speaking s' = false /\
    final_results s' =
      final_results s
      ++ [result_of true (cat (speaking_buffer s ++ wait ++ [closing]))
            (time_time (clock_reads s))] /\
    interim_results s' = interim_results s.
Proof.
  intros Hsr. revert s.
  induction wait as [|c wait IH]; intros s Hsp Hwait Hclose.
  - change (run (silence ([] ++ closing :: rest)) s)
      with (bind (step false closing s) (run (silence rest))).
    unfold on_subchunk. rewrite Hsp.
    set (s1 := set_run true (silence_counter s + shape0 closing)
                 (speaking_buffer s ++ [closing]) s).
    simpl in Hclose.
    destruct (min_silence_samples cfg <=? silence_counter s1) eqn:E;
      [| simpl in E; lia].
    destruct (finalize_returns s1) as [s' [Hs' [Hfin [Hint [Hidle _]]]]];
      [simpl; destruct (speaking_buffer s); discriminate | exact Hsr |].
    rewrite Hs', bind_Return, (silence_idle rest s' Hidle).
    exists s'. conjs; auto.
  - change (run (silence ((c :: wait) ++ closing :: rest)) s)
      with (bind (step false c s) (run (silence (wait ++ closing :: rest)))).
    unfold on_subchunk. rewrite Hsp.
    set (s1 := set_run true (silence_counter s + shape0 c)
                 (speaking_buffer s ++ [c]) s).
    assert (Hc : silence_counter s + shape0 c < min_silence_samples cfg).
    { pose proof (total_samples_nonneg wait).
      assert (c :: wait <> []) as Hne by discriminate.
      specialize (Hwait Hne). simpl in Hwait. lia. }
    destruct (min_silence_samples cfg <=? silence_counter s1) eqn:E;
      [simpl in E; lia|].
    rewrite bind_Return.
    destruct (IH s1) as [s' [Hs' [Hidle [Hfin Hint]]]].
    + reflexivity.
    + intros Hne. destruct wait as [|w wait']; [congruence|].
      assert (c :: w :: wait' <> []) as Hne' by discriminate.
      specialize (Hwait Hne'). simpl in *. lia.
    + simpl in *. lia.
    + exists s'. conjs; auto.
      rewrite Hfin. simpl. rewrite <- app_assoc. reflexivity.
Qed.

(** No step of the loop touches the [running] flag. *)
Lemma step_running (f : bool) (subchunk : tensor) (s : session) :
  running (state_of (step f subchunk s)) = running s.
Proof.
  unfold on_subchunk. destruct f.
  - rewrite speech_run_state.
    set (s1 := set_run true 0 (run_buffer s ++ [subchunk]) s).
    destruct (stabilization_frames cfg =? 0); [reflexivity|].
    destruct (_ mod _ =? 0); [|reflexivity].
    unfold _perform_interim_recognition.
    destruct (speaking_buffer s1); [reflexivity|].
    simpl. destruct (sample_rate cfg =? 0); reflexivity.
  - destruct (is_speaking s); [|reflexivity].
    set (s1 := set_run true _ _ s).
    destruct (min_silence_samples cfg <=? silence_counter s1); [|reflexivity].
    unfold _finalize_speech_segment.
    destruct (speaking_buffer s1); [reflexivity|].
    simpl. destruct (sample_rate cfg =? 0); reflexivity.
Qed.

(** The [for] loop of [_process_stream], whose detector answers [True] for
    every sub-chunk, is the classified loop on an all-speech stream. *)
Lemma process_subchunks_all_speech (chunks : list tensor) (s : session) :
  running s = true ->
  process_subchunks recognize_audio format_time time_time cfg chunks s
  = run (speech chunks) s.
Proof.
  revert s. induction chunks as [|c chunks IH]; intros s Hrun; [reflexivity|].
  change (run (speech (c :: chunks)) s)
    with (bind (step true c s) (run (speech chunks))).
  simpl process_subchunks. rewrite Hrun. simpl negb. cbv iota.
  unfold process_subchunk, _detect_speech.
  pose proof (step_running true c s) as Hr.
  destruct (step true c s) as [s1|e s1]; simpl in *; [|reflexivity].
  apply IH. congruence.
Qed.

Lemma total_samples_uniform (cs : Z) (chunks : list tensor) :
  Forall (fun c => shape0 c = cs) chunks ->
  total_samples chunks = Z.of_nat (length chunks) * cs.
Proof.
  induction 1 as [|c chunks Hc _ IH]; [reflexivity|].
  simpl total_samples. rewrite IH, Hc. simpl length. lia.
Qed.

Lemma firstn_succ_middle {A : Type} (w : list A) (c : A) (r : list A) :
  firstn (S (length w)) (w ++ c :: r) = w ++ [c].
Proof.
  induction w as [|a w IH]; simpl; [reflexivity|].
  f_equal. exact IH.
Qed.


Lemma ceil_div_spec (a b : Z) :
  0 < b -> b * (ceil_div a b - 1) < a <= b * ceil_div a b.
Proof.
  intros Hb. unfold ceil_div.
  pose proof (Z.mul_div_le (a + b - 1) b Hb).
  pose proof (Z.mul_succ_div_gt (a + b - 1) b Hb).
  lia.
Qed.

(** X1.  As the source stands, [_detect_speech] answers [True] for every
    sub-chunk, so a turn of [_process_stream] never adds a final result:
    the silence branch and [_finalize_speech_segment] are never reached. *)
Theorem process_stream_never_finalizes (s : session) :
  final_results
    (state_of (_process_stream_step recognize_audio format_time time_time
                 cfg s))
  = final_results s.
Proof.
  unfold _process_stream_step.
  destruct (running s) eqn:Hrun; [|reflexivity]. cbn [negb].
  unfold drain_all. destruct (audio_buffer s) as [|c b]; [reflexivity|].
  destruct (chunk_size cfg =? 0); [reflexivity|].
  destruct (chunk_size cfg <? 0); [reflexivity|].
  rewrite process_subchunks_all_speech by exact Hrun.
  rewrite speech_finals. reflexivity.
Qed.

(** The loop of lines 281-303 when the sub-chunks come with a
    classification, which is what a detector that tells speech from
    silence would give it.  From an idle session, K >= 1 speech sub-chunks
    followed by ceil(min_silence_samples / chunk_size) + 1 silence
    sub-chunks, all of [chunk_size] samples, produce exactly one final
    result.  Its audio is the K speech sub-chunks together with the first
    n = max(1, ceil(min_silence_samples / chunk_size)) silence sub-chunks,
    so its duration is (K + n) * chunk_size / sample_rate seconds. *)
Lemma one_final_after_silence (speech_chunks silence_chunks : list tensor)
  (s : session) :
  0 < chunk_size cfg ->
  0 <= min_silence_samples cfg ->
  stabilization_frames cfg <> 0 ->
  sample_rate cfg <> 0 ->
  is_speaking s = false ->
  speech_chunks <> [] ->
  Forall (fun c => shape0 c = chunk_size cfg) (speech_chunks ++ silence_chunks) ->
  Z.of_nat (length silence_chunks)
    = ceil_div (min_silence_samples cfg) (chunk_size cfg) + 1 ->
  exists (s' : session) (r : result),
    run (speech speech_chunks ++ silence silence_chunks) s = Return s' /\
    final_results s' = final_results s ++ [r] /\
    is_final r = true /\
    text r =
      recognize_audio
        (cat (speech_chunks
              ++ firstn (Z.to_nat (Z.max 1 (ceil_div (min_silence_samples cfg)
                                              (chunk_size cfg))))
                   silence_chunks)) /\
    duration r =
      format_time
        (seconds cfg
           ((Z.of_nat (length speech_chunks)
             + Z.max 1 (ceil_div (min_silence_samples cfg) (chunk_size cfg)))
            * chunk_size cfg)) /\
    is_speaking s' = false.
Proof.
  intros Hcs Hmss Hsf Hsr Hidle Hne Hall Hlen.
  apply Forall_app in Hall. destruct Hall as [Hsp Hsi].
  set (c := ceil_div (min_silence_samples cfg) (chunk_size cfg)) in *.
  pose proof (ceil_div_spec (min_silence_samples cfg) (chunk_size cfg) Hcs)
    as Hceil. fold c in Hceil.
  assert (Hc0 : 0 <= c) by nia.
  set (n := Z.max 1 c).
  (* the speech phase *)
  destruct (speech_phase speech_chunks s Hsf Hsr Hne)
    as [s1 [Hs1 [Hspk [Hsil [Hbuf Hfin]]]]].
  unfold run_buffer in Hbuf. rewrite Hidle in Hbuf. simpl in Hbuf.
  rewrite run_app, Hs1, bind_Return.
  (* the silence that closes the run *)
  set (m := Z.to_nat (n - 1)).
  assert (Hm : (m < length silence_chunks)%nat) by (unfold m, n; lia).
  pose proof (firstn_skipn m silence_chunks) as Hsplit.
  destruct (skipn m silence_chunks) as [|closing rest] eqn:Eskip.
  { apply (f_equal (@length tensor)) in Eskip.
    rewrite length_skipn in Eskip. simpl in Eskip. lia. }
  set (wait := firstn m silence_chunks) in *.
  assert (Hwlen : length wait = m) by (unfold wait; rewrite length_firstn; lia).
  assert (Hsi' : Forall (fun c => shape0 c = chunk_size cfg)
                   (wait ++ closing :: rest)) by (rewrite Hsplit; exact Hsi).
  apply Forall_app in Hsi'. destruct Hsi' as [Hw Hcr].
  assert (Hcl : shape0 closing = chunk_size cfg) by (inversion Hcr; assumption).
  pose proof (total_samples_uniform (chunk_size cfg) wait Hw) as Htw.
  rewrite Hwlen in Htw.
  destruct (silence_phase wait closing rest s1 Hsr Hspk)
    as [s' [Hs' [Hidle' [Hfin' _]]]].
  - intros Hwne. rewrite Hsil, Htw.
    assert (Hm1 : m <> O) by (intros Hm0; rewrite Hm0 in Hwlen;
                              destruct wait; [congruence | discriminate]).
    assert (Hzm : Z.of_nat m = c - 1) by (unfold m, n in *; lia).
    rewrite Hzm. lia.
  - rewrite Hsil, total_samples_app, Htw. simpl. rewrite Hcl.
    assert (Hzm : Z.of_nat m = n - 1) by (unfold m, n; lia).
    rewrite Hzm. unfold n. nia.
  - rewrite <- Hsplit, Hs'.
    exists s', (result_of true (cat (speaking_buffer s1 ++ wait ++ [closing]))
                  (time_time (clock_reads s1))).
    assert (Hfirst : firstn (Z.to_nat n) (wait ++ closing :: rest)
                     = wait ++ [closing]).
    { replace (Z.to_nat n) with (S (length wait)) by (rewrite Hwlen; unfold m, n; lia).
      apply firstn_succ_middle. }
    conjs.
    + reflexivity.
    + rewrite Hfin', Hfin. reflexivity.
    + reflexivity.
    + simpl. rewrite Hbuf, Hfirst. reflexivity.
    + simpl. f_equal. f_equal. rewrite shape0_cat, Hbuf.
      rewrite !total_samples_app, Htw.
      rewrite (total_samples_uniform (chunk_size cfg) speech_chunks Hsp).
      simpl. rewrite Hcl. unfold m, n. lia.
    + exact Hidle'.
Qed.

(** C3.  With a positive [stabilization_frames]: (a) a sub-chunk classified
    as speech extends the run, adds no final result, and adds an interim
    result exactly when the run's new sub-chunk count is a multiple of
    [stabilization_frames]; (b) three blocks of [stabilization_frames]
    speech sub-chunks, from an idle session, add exactly three interim
    results (one at the end of each block) and no final result, at any
    point of the stream; (c) the loop of [_process_stream], whose detector
    classifies every sub-chunk as speech, is that all-speech stream. *)
Theorem interim_every_stabilization_frames :
  0 < stabilization_frames cfg ->
  sample_rate cfg <> 0 ->
  (forall (subchunk : tensor) (s : session),
     exists s',
       step true subchunk s = Return s' /\
       speaking_buffer s' = run_buffer s ++ [subchunk] /\
       is_speaking s' = true /\
       final_results s' = final_results s /\
       (Z.of_nat (length (speaking_buffer s')) mod stabilization_frames cfg = 0 ->
        interim_results s' =
          interim_results s
          ++ [result_of false (cat (speaking_buffer s'))
                (time_time (clock_reads s))]) /\
       (Z.of_nat (length (speaking_buffer s')) mod stabilization_frames cfg <> 0 ->
        interim_results s' = interim_results s)) /\
  (forall (a b c : list tensor) (s : session),
     is_speaking s = false ->
     Z.of_nat (length a) = stabilization_frames cfg ->
     Z.of_nat (length b) = stabilization_frames cfg ->
     Z.of_nat (length c) = stabilization_frames cfg ->
     exists s',
       run (speech (a ++ b ++ c)) s = Return s' /\
       interim_results s' =
         interim_results s
         ++ [result_of false (cat a) (time_time (clock_reads s));
             result_of false (cat (a ++ b)) (time_time (S (clock_reads s)));
             result_of false (cat (a ++ b ++ c))
               (time_time (S (S (clock_reads s))))] /\
       final_results s' = final_results s /\
       forall k,
         final_results (state_of (run (firstn k (speech (a ++ b ++ c))) s))
         = final_results s) /\
  (forall (chunks : list tensor) (s : session),
     running s = true ->
     process_subchunks recognize_audio format_time time_time cfg chunks s
     = run (speech chunks) s).
Proof.
  intros Hsf Hsr. conjs.
  - intros subchunk s.
    destruct (speech_step subchunk s) as
      [s' [Hs' [Hsp [_ [Hbuf [Hfin [_ [Hyes Hno]]]]]]]]; [lia | exact Hsr |].
    exists s'. conjs; auto.
    + intros H. exact (proj1 (Hyes H)).
    + intros H. exact (proj1 (Hno H)).
  - intros a b c s Hidle Ha Hb Hc.
    assert (Hrb : run_buffer s = []) by (unfold run_buffer; rewrite Hidle; reflexivity).
    destruct (speech_block a s Hsf Hsr Ha) as [s1 [H1 [Hsp1 [Hb1 [Hf1 [Hi1 Hc1]]]]]].
    { rewrite Hrb. simpl. apply Z.mod_0_l. lia. }
    rewrite Hrb in Hb1, Hi1. simpl in Hb1, Hi1.
    assert (Hrb1 : run_buffer s1 = a) by (unfold run_buffer; rewrite Hsp1; exact Hb1).
    destruct (speech_block b s1 Hsf Hsr Hb) as [s2 [H2 [Hsp2 [Hb2 [Hf2 [Hi2 Hc2]]]]]].
    { rewrite Hrb1, Ha. apply Z.mod_same. lia. }
    rewrite Hrb1 in Hb2, Hi2.
    assert (Hrb2 : run_buffer s2 = a ++ b) by (unfold run_buffer; rewrite Hsp2; exact Hb2).
    destruct (speech_block c s2 Hsf Hsr Hc) as [s3 [H3 [Hsp3 [Hb3 [Hf3 [Hi3 Hc3]]]]]].
    { rewrite Hrb2, length_app, Nat2Z.inj_add, Ha, Hb.
      replace (stabilization_frames cfg + stabilization_frames cfg)
        with (2 * stabilization_frames cfg) by lia.
      apply Z.mod_mul. lia. }
    rewrite Hrb2 in Hb3, Hi3.
    exists s3. conjs.
    + unfold speech in *. rewrite map_app, run_app, H1, bind_Return.
      rewrite map_app, run_app, H2, bind_Return. exact H3.
    + rewrite Hi3, Hi2, Hi1, Hc2, Hc1, <- !app_assoc. reflexivity.
    + congruence.
    + intros k. unfold speech. rewrite firstn_map. apply speech_finals.
  - intros chunks s. apply process_subchunks_all_speech.
Qed.

End LoopFacts.

(** ** The VAD-backed detector *)

Section DetectorFacts.

Context {Text Stamp : Type}.
Variable vad : tensor -> option (list vad_segment).

(** C9.  In a session built with VAD in use, [_detect_speech_vad] answers
    [False] whenever the window, with the new audio appended, holds fewer
    than [3 * sample_rate] samples (three seconds); the only change to the
    session is the append to the window, and the pipeline is not called. *)
Theorem vad_window_not_full (sample_rate chunk_size buffer_size : Z)
  (threshold min_silence_duration : Q) (stabilization_frames : Z)
  (vad_threshold : Q) (callback : bool) (audio : tensor)
  (s : @stream Text Stamp) :
  let cfg := __init__ sample_rate chunk_size buffer_size threshold
               min_silence_duration stabilization_frames true vad_threshold
               callback true in
  total_samples (vad_buffer s ++ [audio]) < 3 * sample_rate ->
  _detect_speech_vad vad cfg audio s
    = (false, set_vad_buffer (vad_buffer s ++ [audio]) s) /\
  vad_calls (snd (_detect_speech_vad vad cfg audio s)) = vad_calls s.
Proof.
  intros cfg Hsmall. unfold _detect_speech_vad.
  change (use_vad cfg) with true.
  change (vad_buffer_size cfg) with (3 * sample_rate).
  cbn [negb vad_buffer set_vad_buffer].
  rewrite (proj2 (Z.ltb_lt _ _) Hsmall).
  split; reflexivity.
Qed.

End DetectorFacts.

(** ** The offline segmenter *)

Section OfflineFacts.

Context {Pipeline AudioSegment : Type}.
Variable from_pretrained : string -> fallible Pipeline.
Variable support : Pipeline -> AudioSegment -> fallible (list vad_segment).
Variable make_audio : tensor -> Z -> fallible AudioSegment.
Variable export : AudioSegment -> option exn.
Variable audio_len : AudioSegment -> Z.
Variable audio_slice : AudioSegment -> Z -> Z -> AudioSegment.
Variable get_array_of_samples : AudioSegment -> list Z.
Variable max_duration min_duration new_chunk_threshold : Q.

Abbreviation step_ :=
  (segment_step audio_len audio_slice get_array_of_samples
     max_duration min_duration new_chunk_threshold).
Abbreviation new_chunk :=
  (starts_new_chunk max_duration min_duration new_chunk_threshold).
Abbreviation emit_ := (emit audio_slice get_array_of_samples).
Abbreviation to_tensor := (audiosegment_to_tensor get_array_of_samples).
Abbreviation merge :=
  (merge_timeline audio_len audio_slice get_array_of_samples
     max_duration min_duration new_chunk_threshold).
Abbreviation clamp_end_ := (clamp_end audio_len).
Abbreviation spec_starts_new_chunk :=
  (spec_starts_new_chunk max_duration min_duration new_chunk_threshold).


Lemma Qgt_bool_compat (a a' b b' : Q) :
  (a == a')%Q -> (b == b')%Q -> Qgt_bool a b = Qgt_bool a' b'.
Proof. intros Ha Hb. unfold Qgt_bool. rewrite Ha, Hb. reflexivity. Qed.

Lemma emit_bounds (audio : AudioSegment) (c : chunker) :
  curr_start (emit_ audio c) = curr_start c /\
  curr_end (emit_ audio c) = curr_end c /\
  curr_duration (emit_ audio c) = curr_duration c.
Proof. unfold emit. destruct (0 <? _); repeat split. Qed.

(** What a turn of the loop does to the bounds of the current chunk. *)
Lemma segment_step_bounds (audio : AudioSegment) (c : chunker)
  (segment : vad_segment) :
  let start := clamp_start segment in
  let end_ := clamp_end_ audio segment in
  let c' := step_ audio c segment in
  curr_start c' = (if new_chunk c start end_ then start else curr_start c) /\
  curr_end c' = end_ /\
  curr_duration c' = (curr_end c' - curr_start c')%Q.
Proof.
  intros start end_ c'. unfold c', segment_step. fold start end_.
  destruct (new_chunk c start end_); simpl; repeat split.
Qed.

(** The duration kept by the loop is that of the current chunk. *)
Lemma duration_invariant (audio : AudioSegment) (timeline : list vad_segment) :
  let c := fold_left (step_ audio) timeline initial_chunker in
  (curr_duration c == curr_end c - curr_start c)%Q.
Proof.
  induction timeline as [|segment timeline _] using rev_ind; cbv zeta.
  - reflexivity.
  - rewrite fold_left_app. cbn [fold_left].
    destruct (segment_step_bounds audio
                (fold_left (step_ audio) timeline initial_chunker) segment)
      as [_ [_ H]].
    rewrite H. reflexivity.
Qed.

(** The test of the code is the rule of the specification. *)
Lemma starts_new_chunk_spec (c : chunker) (start end_ : Q) :
  (curr_duration c == curr_end c - curr_start c)%Q ->
  new_chunk c start end_ = true <-> spec_starts_new_chunk c start end_.
Proof.
  intros Hd. unfold starts_new_chunk, spec_starts_new_chunk.
  rewrite orb_true_iff, andb_true_iff, !Qgt_bool_true.
  assert (He : (curr_duration c + (end_ - curr_end c) == end_ - curr_start c)%Q).
  { rewrite Hd. ring. }
  rewrite He, Hd. reflexivity.
Qed.

Lemma no_new_chunk (c : chunker) (start end_ : Q) :
  (curr_duration c == curr_end c - curr_start c)%Q ->
  ~ spec_starts_new_chunk c start end_ -> new_chunk c start end_ = false.
Proof.
  intros Hd Hn. destruct (new_chunk c start end_) eqn:E; [|reflexivity].
  exfalso. apply Hn. apply (starts_new_chunk_spec c start end_ Hd). exact E.
Qed.

Lemma emit_nonempty (audio : AudioSegment) (c : chunker) :
  let t := to_tensor (audio_slice audio (py_int (curr_start c * 1000))
                        (py_int (curr_end c * 1000))) in
  0 < shape0 t ->
  emit_ audio c =
    {| segments := segments c ++ [t];
       boundaries := boundaries c ++ [(curr_start c, curr_end c)];
       curr_start := curr_start c;
       curr_end := curr_end c;
       curr_duration := curr_duration c |}.
Proof.
  intros t Ht. unfold emit. fold t.
  rewrite (proj2 (Z.ltb_lt _ _) Ht). reflexivity.
Qed.

Lemma Qgt_bool_lt (x y : Q) : (y < x)%Q -> Qgt_bool x y = true.
Proof. apply Qgt_bool_true. Qed.

Lemma Qgt_bool_le (x y : Q) : (x <= y)%Q -> Qgt_bool x y = false.
Proof. apply Qgt_bool_false. Qed.

Lemma step_extend (audio : AudioSegment) (c : chunker) (segment : vad_segment) :
  new_chunk c (clamp_start segment) (clamp_end_ audio segment) = false ->
  step_ audio c segment =
    {| segments := segments c;
       boundaries := boundaries c;
       curr_start := curr_start c;
       curr_end := clamp_end_ audio segment;
       curr_duration := clamp_end_ audio segment - curr_start c |}.
Proof. intros H. unfold segment_step. rewrite H. reflexivity. Qed.

Lemma step_split (audio : AudioSegment) (c : chunker) (segment : vad_segment) :
  new_chunk c (clamp_start segment) (clamp_end_ audio segment) = true ->
  (curr_start c < curr_end c)%Q ->
  step_ audio c segment =
    {| segments := segments (emit_ audio c);
       boundaries := boundaries (emit_ audio c);
       curr_start := clamp_start segment;
       curr_end := clamp_end_ audio segment;
       curr_duration := clamp_end_ audio segment - clamp_start segment |}.
Proof.
  intros H Hlt. unfold segment_step. rewrite H, (Qgt_bool_lt _ _ Hlt).
  reflexivity.
Qed.

Lemma last_chunk_emits (audio : AudioSegment) (c : chunker) :
  curr_duration c = (curr_end c - curr_start c)%Q ->
  (curr_start c < curr_end c)%Q ->
  last_chunk audio_slice get_array_of_samples audio c = emit_ audio c.
Proof.
  intros Hd Hlt. unfold last_chunk.
  assert (Hne : Qeq_bool (curr_duration c) 0 = false).
  { destruct (Qeq_bool (curr_duration c) 0) eqn:E; [|reflexivity].
    apply Qeq_bool_eq in E. rewrite Hd in E. exfalso.
    apply (Qlt_irrefl (curr_start c)).
    setoid_replace (curr_start c) with (curr_start c + (curr_end c - curr_start c))%Q
      at 2 by (rewrite E; ring).
    setoid_replace (curr_start c + (curr_end c - curr_start c))%Q
      with (curr_end c) by ring.
    exact Hlt. }
  rewrite Hne, (Qgt_bool_lt _ _ Hlt). reflexivity.
Qed.

Lemma initial_extends (audio : AudioSegment) (segment : vad_segment) :
  (0 <= min_duration)%Q ->
  (clamp_end_ audio segment <= max_duration)%Q ->
  new_chunk initial_chunker (clamp_start segment) (clamp_end_ audio segment)
  = false.
Proof.
  intros Hmin He. apply no_new_chunk; [reflexivity|].
  unfold spec_starts_new_chunk. simpl. intros [[H _] | H].
  - apply (Qlt_irrefl min_duration). eapply Qlt_le_trans; [exact H|].
    setoid_replace (0 - 0)%Q with 0%Q by ring. exact Hmin.
  - apply (Qlt_irrefl max_duration). eapply Qlt_le_trans; [exact H|].
    setoid_replace (clamp_end_ audio segment - 0)%Q
      with (clamp_end_ audio segment) by ring.
    exact He.
Qed.

(** Two segments with a small gap whose span fits: one chunk. *)
Lemma merge_two (audio : AudioSegment) (seg1 seg2 : vad_segment) :
  let e1 := clamp_end_ audio seg1 in
  let s2 := clamp_start seg2 in
  let e2 := clamp_end_ audio seg2 in
  let t := to_tensor (audio_slice audio 0 (py_int (e2 * 1000))) in
  (0 <= min_duration)%Q ->
  (e1 <= max_duration)%Q ->
  (s2 - e1 <= new_chunk_threshold)%Q ->
  (e2 <= max_duration)%Q ->
  (0 < e2)%Q ->
  0 < shape0 t ->
  merge audio [seg1; seg2] = ([t], [(0%Q, e2)]).
Proof.
  intros e1 s2 e2 t Hmin He1 Hgap He2 Hpos Ht.
  unfold merge_timeline. cbn [fold_left].
  rewrite (step_extend audio initial_chunker seg1)
    by (apply initial_extends; assumption).
  fold e1. cbn [initial_chunker segments boundaries curr_start].
  set (c1 := {| segments := []; boundaries := []; curr_start := 0;
                curr_end := e1; curr_duration := e1 - 0 |}).
  assert (H1 : new_chunk c1 s2 e2 = false).
  { apply no_new_chunk; [reflexivity|]. unfold spec_starts_new_chunk. simpl.
    intros [[_ H] | H].
    - apply (Qlt_irrefl new_chunk_threshold). eapply Qlt_le_trans; eassumption.
    - apply (Qlt_irrefl max_duration). eapply Qlt_le_trans; [exact H|].
      setoid_replace (e2 - 0)%Q with e2 by ring. exact He2. }
  rewrite (step_extend audio c1 seg2 H1). fold e2.
  cbn [c1 segments boundaries curr_start].
  rewrite last_chunk_emits; [| reflexivity | exact Hpos].
  rewrite emit_nonempty by exact Ht.
  reflexivity.
Qed.

(** Two segments with a large gap after [min_duration]: two chunks. *)
Lemma split_two (audio : AudioSegment) (seg1 seg2 : vad_segment) :
  let e1 := clamp_end_ audio seg1 in
  let s2 := clamp_start seg2 in
  let e2 := clamp_end_ audio seg2 in
  let t1 := to_tensor (audio_slice audio 0 (py_int (e1 * 1000))) in
  let t2 := to_tensor (audio_slice audio (py_int (s2 * 1000))
                         (py_int (e2 * 1000))) in
  (0 <= min_duration)%Q ->
  (e1 <= max_duration)%Q ->
  (min_duration < e1)%Q ->
  (new_chunk_threshold < s2 - e1)%Q ->
  (s2 < e2)%Q ->
  0 < shape0 t1 ->
  0 < shape0 t2 ->
  merge audio [seg1; seg2] = ([t1; t2], [(0%Q, e1); (s2, e2)]).
Proof.
  intros e1 s2 e2 t1 t2 Hmin He1 Hacc Hgap Hlen Ht1 Ht2.
  assert (Hpos : (0 < e1)%Q) by (eapply Qle_lt_trans; eassumption).
  unfold merge_timeline. cbn [fold_left].
  rewrite (step_extend audio initial_chunker seg1)
    by (apply initial_extends; assumption).
  fold e1. cbn [initial_chunker segments boundaries curr_start].
  set (c1 := {| segments := []; boundaries := []; curr_start := 0;
                curr_end := e1; curr_duration := e1 - 0 |}).
  assert (H1 : new_chunk c1 s2 e2 = true).
  { apply (starts_new_chunk_spec c1 s2 e2); [reflexivity|].
    left. simpl. split; [|exact Hgap].
    setoid_replace (e1 - 0)%Q with e1 by ring. exact Hacc. }
  rewrite (step_split audio c1 seg2 H1 Hpos). fold s2 e2.
  rewrite (emit_nonempty audio c1) by exact Ht1.
  cbn [c1 segments boundaries curr_start curr_end app].
  rewrite last_chunk_emits; [| reflexivity | exact Hlen].
  rewrite emit_nonempty by exact Ht2.
  reflexivity.
Qed.

(** C6, amended.  (a) At every turn of the loop, the segment starts a new
    output chunk exactly when the chunk accumulated so far is longer than
    [min_duration] and its gap to the segment exceeds
    [new_chunk_threshold], or the chunk extended to the segment's end would
    be longer than [max_duration]; otherwise the current chunk is extended
    and nothing is emitted.  (b) Two segments whose gap is at most
    [new_chunk_threshold] merge into one output chunk when the merged chunk
    is no longer than [max_duration].  (c) Two segments whose gap exceeds
    [new_chunk_threshold], the first ending after [min_duration], give two
    output chunks.  In (b) and (c) the chunks cut from the audio hold at
    least one sample. *)
Theorem segment_audio_chunking_rule :
  (forall (audio : AudioSegment) (timeline : list vad_segment)
          (segment : vad_segment),
     let c := fold_left (step_ audio) timeline initial_chunker in
     let start := clamp_start segment in
     let end_ := clamp_end_ audio segment in
     let c' := step_ audio c segment in
     (new_chunk c start end_ = true <-> spec_starts_new_chunk c start end_) /\
     (spec_starts_new_chunk c start end_ -> curr_start c' = start) /\
     (~ spec_starts_new_chunk c start end_ ->
      curr_start c' = curr_start c /\
      segments c' = segments c /\ boundaries c' = boundaries c) /\
     curr_end c' = end_) /\
  (forall (audio : AudioSegment) (seg1 seg2 : vad_segment),
     let e1 := clamp_end_ audio seg1 in
     let s2 := clamp_start seg2 in
     let e2 := clamp_end_ audio seg2 in
     let t := to_tensor (audio_slice audio 0 (py_int (e2 * 1000))) in
     (0 <= min_duration)%Q ->
     (e1 <= max_duration)%Q ->
     (s2 - e1 <= new_chunk_threshold)%Q ->
     (e2 <= max_duration)%Q ->
     (0 < e2)%Q ->
     0 < shape0 t ->
     merge audio [seg1; seg2] = ([t], [(0%Q, e2)])) /\
  (forall (audio : AudioSegment) (seg1 seg2 : vad_segment),
     let e1 := clamp_end_ audio seg1 in
     let s2 := clamp_start seg2 in
     let e2 := clamp_end_ audio seg2 in
     let t1 := to_tensor (audio_slice audio 0 (py_int (e1 * 1000))) in
     let t2 := to_tensor (audio_slice audio (py_int (s2 * 1000))
                            (py_int (e2 * 1000))) in
     (0 <= min_duration)%Q ->
     (e1 <= max_duration)%Q ->
     (min_duration < e1)%Q ->
     (new_chunk_threshold < s2 - e1)%Q ->
     (s2 < e2)%Q ->
     0 < shape0 t1 ->
     0 < shape0 t2 ->
     merge audio [seg1; seg2] = ([t1; t2], [(0%Q, e1); (s2, e2)])).
Proof.
  conjs.
  - intros audio timeline segment c start end_ c'.
    pose proof (duration_invariant audio timeline) as Hd. cbv zeta in Hd.
    fold c in Hd.
    pose proof (starts_new_chunk_spec c start end_ Hd) as Hspec.
    destruct (segment_step_bounds audio c segment) as [Hs [He _]].
    fold start end_ c' in Hs, He.
    conjs.
    + exact Hspec.
    + intros H. apply Hspec in H. rewrite Hs, H. reflexivity.
    + intros H. pose proof (no_new_chunk c start end_ Hd H) as Hn.
      unfold c'. unfold start, end_ in Hn.
      rewrite (step_extend audio c segment Hn). conjs; reflexivity.
    + exact He.
  - exact merge_two.
  - exact split_two.
Qed.

(** C7, amended.  For an input that has a [shape], the checks of
    [segment_audio] fail fast, in this order: [TypeError] when the input is
    not a torch tensor; [ValueError] when the clip is shorter than 1000 ms;
    [ValueError], raised by [get_pipeline], when no pipeline is cached and
    [HF_TOKEN] is not set.  These are not its only failures: whatever the
    library calls in between raise (building the audio segment, exporting
    it, loading the pipeline, running it) leaves the function unchanged.
    Chunks are returned exactly when the input is a tensor, every one of
    these steps succeeds and the clip lasts at least 1000 ms; a failure
    returns no chunks. *)
Theorem segment_audio_failures (g : globals Pipeline) (wav_tensor : py_value)
  (sample_rate : Z) :
  has_shape wav_tensor = true ->
  let run :=
    segment_audio from_pretrained support make_audio export audio_len
      audio_slice get_array_of_samples max_duration min_duration
      new_chunk_threshold g wav_tensor sample_rate in
  let built := make_audio (data_of wav_tensor) sample_rate in
  (is_torch_tensor wav_tensor = false ->
   run = Failed (TypeError "wav_tensor must be a torch.Tensor"%string)) /\
  (is_torch_tensor wav_tensor = true ->
   forall e, built = Failed e -> run = Failed e) /\
  (is_torch_tensor wav_tensor = true ->
   forall audio, built = Ok audio -> audio_len audio < 1000 ->
   run = Failed (ValueError "Audio too short for segmentation"%string)) /\
  (is_torch_tensor wav_tensor = true ->
   forall audio, built = Ok audio -> 1000 <= audio_len audio ->
   forall e, export audio = Some e -> run = Failed e) /\
  (is_torch_tensor wav_tensor = true ->
   forall audio, built = Ok audio -> 1000 <= audio_len audio ->
   export audio = None ->
   (_PIPELINE g = None -> HF_TOKEN g = None ->
    run = Failed (ValueError "HF_TOKEN environment variable is not set"%string)) /\
   (forall e, get_pipeline from_pretrained g = Failed e -> run = Failed e) /\
   (forall p g' e, get_pipeline from_pretrained g = Ok (p, g') ->
      support p audio = Failed e -> run = Failed e)) /\
  (forall out,
     run = Ok out <->
     is_torch_tensor wav_tensor = true /\
     exists audio p g' timeline,
       built = Ok audio /\
       1000 <= audio_len audio /\
       export audio = None /\
       get_pipeline from_pretrained g = Ok (p, g') /\
       support p audio = Ok timeline /\
       out = merge audio timeline).
Proof.
  intros Hshape run built. unfold run, segment_audio. rewrite Hshape.
  cbn [negb]. fold built. conjs.
  - intros ->. reflexivity.
  - intros -> e ->. reflexivity.
  - intros -> audio -> Hlen. cbn [negb].
    rewrite (proj2 (Z.ltb_lt _ _) Hlen). reflexivity.
  - intros -> audio -> Hlen e ->. cbn [negb].
    rewrite (proj2 (Z.ltb_ge _ _) Hlen). reflexivity.
  - intros -> audio -> Hlen ->. cbn [negb].
    rewrite (proj2 (Z.ltb_ge _ _) Hlen). conjs.
    + intros Hp Ht. unfold get_pipeline. rewrite Hp, Ht. reflexivity.
    + intros e ->. reflexivity.
    + intros p g' e -> ->. reflexivity.
  - intros out. destruct (is_torch_tensor wav_tensor); cbn [negb];
      [|split; [discriminate | intros [H _]; discriminate H]].
    destruct built as [audio|e];
      [|split; [discriminate
               | intros [_ [a [p [g' [tl [H _]]]]]]; discriminate H]].
    destruct (audio_len audio <? 1000) eqn:El.
    { apply Z.ltb_lt in El. split; [discriminate|].
      intros [_ [a [p [g' [tl [[= <-] [H _]]]]]]]. lia. }
    apply Z.ltb_ge in El. destruct (export audio) as [e|] eqn:Ee.
    { split; [discriminate|].
      intros [_ [a [p [g' [tl [[= <-] [_ [H _]]]]]]]]. congruence. }
    destruct (get_pipeline from_pretrained g) as [[p g']|e] eqn:Eg.
    2:{ split; [discriminate|].
        intros [_ [a [p [g' [tl [_ [_ [_ [H _]]]]]]]]]. discriminate H. }
    destruct (support p audio) as [timeline|e] eqn:Es.
    + split.
      * intros [= <-]. split; [reflexivity|].
        exists audio, p, g', timeline. conjs; try reflexivity; assumption.
      * intros [_ [a [p0 [g0 [tl [[= <-] [_ [_ [[= <- <-] [Hs ->]]]]]]]]]].
        rewrite Es in Hs. injection Hs as <-. reflexivity.
    + split; [discriminate|].
      intros [_ [a [p0 [g0 [tl [[= <-] [_ [_ [[= <- <-] [Hs _]]]]]]]]]].
      rewrite Es in Hs. discriminate Hs.
Qed.

End OfflineFacts.

(** ** The two threads *)

Section ThreadFacts.

Variable max_buffer_samples : Z.

Abbreviation tstep := (thread_step max_buffer_samples).
Abbreviation inv := (lock_invariant max_buffer_samples).

Lemma initial_invariant : inv initial_shared.
Proof. split; [reflexivity | left; reflexivity]. Qed.

(** Every step keeps the invariant. *)
Lemma thread_step_invariant (e : event) (s s' : shared) :
  inv s -> tstep e s = Some s' -> inv s'.
Proof.
  unfold lock_invariant, thread_step.
  destruct e as [chunk| |];
    destruct (ppc s) as [|c|total] eqn:Ep;
    destruct (wpc s) as [| |a|a] eqn:Ew;
    intros Hinv Hstep; try discriminate; try contradiction.
  - (* call, both idle *)
    destruct (normalize chunk); [|discriminate].
    destruct (lock s); [discriminate|]. injection Hstep as <-. simpl.
    reflexivity.
  - destruct Hinv as [Hl _]. destruct (normalize chunk); [|discriminate].
    rewrite Hl in Hstep. discriminate.
  - destruct Hinv as [Hl _]. destruct (normalize chunk); [|discriminate].
    rewrite Hl in Hstep. discriminate.
  - destruct Hinv as [Hl _]. destruct (normalize chunk); [|discriminate].
    rewrite Hl in Hstep. discriminate.
  - (* append *)
    injection Hstep as <-. simpl. split; [exact Hinv | reflexivity].
  - (* the while loop *)
    destruct Hinv as [Hl Ht].
    destruct (max_buffer_samples <? total) eqn:E.
    + destruct (buffer s) as [|removed rest] eqn:Eb;
        injection Hstep as <-; simpl.
      * split; [reflexivity | left; reflexivity].
      * split; [exact Hl|]. rewrite Ht. simpl. lia.
    + injection Hstep as <-. simpl. split; [reflexivity|].
      right. apply Z.ltb_ge in E. lia.
  - (* worker takes the lock *)
    destruct Hinv as [Hl Hc]. rewrite Hl in Hstep.
    injection Hstep as <-. simpl. rewrite ?Ep. split; [reflexivity | exact Hc].
  - (* worker tests the buffer *)
    destruct Hinv as [Hl Hc].
    destruct (buffer s) as [|c0 b] eqn:Eb; injection Hstep as <-; simpl;
      rewrite ?Ep.
    + split; [reflexivity | left; reflexivity].
    + rewrite ?Eb. split; [exact Hl|]. split; [reflexivity | discriminate].
  - (* worker clears the buffer *)
    destruct Hinv as [Hl _]. injection Hstep as <-. simpl. rewrite ?Ep.
    split; [exact Hl | reflexivity].
  - (* worker leaves the block *)
    destruct Hinv as [Hl Hb]. injection Hstep as <-. simpl. rewrite ?Ep.
    split; [reflexivity | left; exact Hb].
  - (* worker waits: the producer holds the lock *)
    rewrite Hinv in Hstep. discriminate.
  - destruct Hinv as [Hl _]. rewrite Hl in Hstep. discriminate.
Qed.

Lemma schedule_invariant (events : list event) (s s' : shared) :
  inv s -> schedule max_buffer_samples events s = Some s' -> inv s'.
Proof.
  revert s. induction events as [|e events IH]; intros s Hinv; simpl.
  - intros [= <-]. exact Hinv.
  - destruct (tstep e s) as [s1|] eqn:E; [|discriminate].
    apply IH. exact (thread_step_invariant e s s1 Hinv E).
Qed.

End ThreadFacts.



(** ** More on the ingestor: outcomes, eviction order, amplitude *)





Lemma normalize_bounded (chunk stored : tensor) :
  normalize chunk = Some stored ->
  Forall (fun x => (Qabs x <= 1)%Q) stored.
Proof.
  unfold normalize. destruct (abs_max chunk) as [peak|] eqn:Hmax;
    [|discriminate].
  intros [= <-]. destruct (Qgt_bool peak 1) eqn:Hp.
  - apply Qgt_bool_true in Hp. unfold scale_by. apply Forall_forall.
    intros y Hy. apply in_map_iff in Hy. destruct Hy as [x [<- Hx]].
    apply Qabs_div_le_1; [exact Hp | exact (abs_max_bound chunk peak Hmax x Hx)].
  - apply Qgt_bool_false in Hp. apply Forall_forall. intros x Hx.
    eapply Qle_trans; [exact (abs_max_bound chunk peak Hmax x Hx) | exact Hp].
Qed.

Lemma evict_negative (m : Z) (buffer : list tensor) :
  m < 0 -> evict m (total_samples buffer) buffer = Raise IndexError [].
Proof.
  intros Hm. induction buffer as [|r rest IH].
  - cbn. rewrite (proj2 (Z.ltb_lt _ _) Hm). reflexivity.
  - pose proof (shape0_nonneg r). pose proof (total_samples_nonneg rest).
    change (total_samples (r :: rest)) with (shape0 r + total_samples rest).
    cbn [evict].
    assert (E : (m <? shape0 r + total_samples rest) = true)
      by (apply Z.ltb_lt; lia).
    rewrite E.
    replace (shape0 r + total_samples rest - shape0 r)
      with (total_samples rest) by lia.
    exact IH.
Qed.

Lemma evict_minimal (m : Z) (buffer b' : list tensor) :
  evict m (total_samples buffer) buffer = Return b' ->
  exists n,
    b' = skipn n buffer /\
    total_samples b' <= m /\
    forall k, (k < n)%nat -> m < total_samples (skipn k buffer).
Proof.
  revert b'. induction buffer as [|r rest IH]; intros b'.
  - cbn. destruct (m <? 0) eqn:E; [discriminate|]. intros [= <-].
    apply Z.ltb_ge in E. exists O. cbn. split; [reflexivity|].
    split; [exact E | intros k Hk; lia].
  - change (total_samples (r :: rest)) with (shape0 r + total_samples rest).
    cbn [evict].
    destruct (m <? shape0 r + total_samples rest) eqn:E.
    + replace (shape0 r + total_samples rest - shape0 r)
        with (total_samples rest) by lia.
      intros H. destruct (IH b' H) as [n [H1 [H2 H3]]].
      apply Z.ltb_lt in E. exists (S n). split; [exact H1|].
      split; [exact H2|]. intros [|k] Hk; cbn; [exact E | apply H3; lia].
    + intros [= <-]. apply Z.ltb_ge in E. exists O. cbn.
      split; [reflexivity|]. split; [exact E | intros k Hk; lia].
Qed.

Lemma evict_fits (m : Z) (buffer : list tensor) :
  total_samples buffer <= m ->
  evict m (total_samples buffer) buffer = Return buffer.
Proof.
  intros H. apply Z.ltb_ge in H.
  destruct buffer as [|r rest]; unfold evict; fold evict; rewrite H;
    reflexivity.
Qed.

Lemma Forall_skipn_of {A : Type} (P : A -> Prop) (n : nat) (l : list A) :
  Forall P l -> Forall P (skipn n l).
Proof.
  intros H. rewrite <- (firstn_skipn n l) in H.
  apply Forall_app in H. exact (proj2 H).
Qed.

Section IngestorOutcomes.

Context {Text Stamp : Type}.
Variable cfg : config.

Abbreviation session := (@stream Text Stamp).

Lemma set_audio_buffer_same (s : session) :
  set_audio_buffer (audio_buffer s) s = s.
Proof. destruct s; reflexivity. Qed.

Lemma add_audio_chunk_fits (chunk stored : tensor) (s : session) :
  normalize chunk = Some stored ->
  total_samples (audio_buffer s) + shape0 chunk <= max_buffer_samples cfg ->
  add_audio_chunk cfg chunk s
  = Return (set_audio_buffer (audio_buffer s ++ [stored]) s).
Proof.
  intros Hn Hfit. unfold add_audio_chunk. rewrite Hn.
  rewrite evict_fits; [reflexivity|].
  rewrite total_samples_app. cbn [total_samples fold_right].
  rewrite (normalize_shape chunk stored Hn). lia.
Qed.

Lemma add_audio_chunk_bounded (chunk : tensor) (s : session) :
  Forall (Forall (fun x => (Qabs x <= 1)%Q)) (audio_buffer s) ->
  Forall (Forall (fun x => (Qabs x <= 1)%Q))
    (audio_buffer (state_of (add_audio_chunk cfg chunk s))).
Proof.
  intros Hs. unfold add_audio_chunk.
  destruct (normalize chunk) as [stored|] eqn:Hn; [|exact Hs].
  destruct (evict (max_buffer_samples cfg)
              (total_samples (audio_buffer s ++ [stored]))
              (audio_buffer s ++ [stored])) as [b|e b] eqn:He; cbn.
  - destruct (evict_returns _ _ _ He) as [_ [n ->]].
    apply Forall_skipn_of. apply Forall_app. split; [exact Hs|].
    constructor; [exact (normalize_bounded chunk stored Hn) | constructor].
  - destruct (evict_raises _ _ _ _ He) as [_ [-> _]]. constructor.
Qed.

Lemma apply_op_bounded (o : buffer_op) (s : session) :
  Forall (Forall (fun x => (Qabs x <= 1)%Q)) (audio_buffer s) ->
  Forall (Forall (fun x => (Qabs x <= 1)%Q))
    (audio_buffer (state_of (apply_op cfg o s))).
Proof.
  intros Hs. destruct o as [chunk| |]; cbn [apply_op].
  - exact (add_audio_chunk_bounded chunk s Hs).
  - unfold drain_all. destruct (audio_buffer s) eqn:E; cbn.
    + rewrite E. constructor.
    + constructor.
  - cbn. constructor.
Qed.

Lemma apply_ops_bounded (ops : list buffer_op) (s : session) :
  Forall (Forall (fun x => (Qabs x <= 1)%Q)) (audio_buffer s) ->
  Forall (Forall (fun x => (Qabs x <= 1)%Q))
    (audio_buffer (state_of (apply_ops cfg ops s))).
Proof.
  revert s. induction ops as [|o rest IH]; intros s Hs; [exact Hs|].
  cbn [apply_ops]. pose proof (apply_op_bounded o s Hs) as H.
  destruct (apply_op cfg o s) as [s1|e s1]; cbn [bind state_of] in *.
  - exact (IH s1 H).
  - exact H.
Qed.

(** X3. The outcomes of [add_audio_chunk].  An empty chunk raises
    [RuntimeError] (the maximum of an empty tensor) and leaves the session
    as it was; with a negative capacity every chunk that is not empty
    raises [IndexError] from [pop(0)] after the whole buffer has been
    dropped; in every other case the call returns. *)
Theorem add_audio_chunk_outcomes (chunk : tensor) (s : session) :
  (chunk = [] -> add_audio_chunk cfg chunk s = Raise RuntimeError s) /\
  (chunk <> [] -> max_buffer_samples cfg < 0 ->
   add_audio_chunk cfg chunk s = Raise IndexError (set_audio_buffer [] s)) /\
  (returns (add_audio_chunk cfg chunk s) = true <->
   chunk <> [] /\ 0 <= max_buffer_samples cfg).
Proof.
  split; [intros ->; reflexivity|].
  assert (Hneg : chunk <> [] -> max_buffer_samples cfg < 0 ->
            add_audio_chunk cfg chunk s
            = Raise IndexError (set_audio_buffer [] s)).
  { intros Hc Hm. destruct (normalize_some chunk Hc) as [stored Hn].
    unfold add_audio_chunk. rewrite Hn, (evict_negative _ _ Hm).
    reflexivity. }
  split; [exact Hneg|]. split.
  - intros Hr. destruct chunk as [|x chunk]; [discriminate Hr|].
    split; [discriminate|].
    destruct (Z_lt_le_dec (max_buffer_samples cfg) 0) as [Hm|Hm];
      [|exact Hm].
    rewrite (Hneg ltac:(discriminate) Hm) in Hr. discriminate Hr.
  - intros [Hc Hm]. destruct (normalize_some chunk Hc) as [stored Hn].
    unfold add_audio_chunk. rewrite Hn.
    destruct (evict_total (max_buffer_samples cfg)
                (audio_buffer s ++ [stored]) Hm) as [b' ->].
    reflexivity.
Qed.

(** X4. When [add_audio_chunk] returns, what it dropped is a prefix of the
    buffer (the oldest chunks) and the shortest one that brings the total
    within the capacity: after dropping any fewer chunks the buffer would
    still hold more than [max_buffer_samples]. *)
Theorem add_audio_chunk_evicts_oldest_only (chunk : tensor) (s s' : session) :
  add_audio_chunk cfg chunk s = Return s' ->
  exists (stored : tensor) (n : nat),
    normalize chunk = Some stored /\
    audio_buffer s' = skipn n (audio_buffer s ++ [stored]) /\
    total_samples (audio_buffer s') <= max_buffer_samples cfg /\
    forall k, (k < n)%nat ->
      max_buffer_samples cfg
      < total_samples (skipn k (audio_buffer s ++ [stored])).
Proof.
  unfold add_audio_chunk.
  destruct (normalize chunk) as [stored|] eqn:Hn; [|discriminate].
  destruct (evict (max_buffer_samples cfg)
              (total_samples (audio_buffer s ++ [stored]))
              (audio_buffer s ++ [stored])) as [b|e b] eqn:He;
    [|discriminate].
  intros [= <-]. destruct (evict_minimal _ _ _ He) as [n [H1 [H2 H3]]].
  exists stored, n. split; [reflexivity|]. split; [exact H1|].
  split; [exact H2 | exact H3].
Qed.

(** X5. Whatever sequence of [add_audio_chunk], drain and [reset] calls a
    new session goes through, and whether or not one of them raises, every
    sample left in [audio_buffer] has an absolute value of at most 1; so
    has every sample of the block the worker would join from it. *)
Theorem stored_samples_within_unit_range (ops : list buffer_op) :
  let s := state_of (apply_ops cfg ops (@initial_stream Text Stamp)) in
  Forall (Forall (fun x => (Qabs x <= 1)%Q)) (audio_buffer s) /\
  Forall (fun x => (Qabs x <= 1)%Q) (cat (audio_buffer s)).
Proof.
  intros s.
  assert (H : Forall (Forall (fun x => (Qabs x <= 1)%Q)) (audio_buffer s))
    by (apply apply_ops_bounded; constructor).
  split; [exact H|]. unfold cat. apply Forall_concat. exact H.
Qed.

(** X6. Normalisation is idempotent: a chunk as [add_audio_chunk] stores it
    is stored unchanged when it is fed in again, since its peak is no
    longer above 1. *)
Theorem normalize_idempotent (chunk stored : tensor) :
  normalize chunk = Some stored -> normalize stored = Some stored.
Proof.
  intros Hn. pose proof (normalize_bounded chunk stored Hn) as Hb.
  assert (Hne : stored <> []).
  { pose proof (normalize_shape chunk stored Hn) as Hs.
    destruct chunk; [discriminate Hn|]. destruct stored; [|discriminate].
    discriminate Hs. }
  unfold normalize. destruct (abs_max stored) as [peak|] eqn:Hmax.
  - destruct (abs_max_attained stored peak Hmax) as [x [Hx Hp]].
    rewrite Forall_forall in Hb. specialize (Hb x Hx). rewrite Hp in Hb.
    rewrite (proj2 (Qgt_bool_false peak 1) Hb). reflexivity.
  - destruct stored; [contradiction | discriminate Hmax].
Qed.

Lemma appends_fit (chunks stored : list tensor) (s : session) :
  Forall2 (fun chunk st => normalize chunk = Some st) chunks stored ->
  total_samples (audio_buffer s) + total_samples chunks
    <= max_buffer_samples cfg ->
  apply_ops cfg (map OpAppend chunks) s
  = Return (set_audio_buffer (audio_buffer s ++ stored) s).
Proof.
  intros H. revert s. induction H as [|chunk st chunks stored Hn _ IH];
    intros s Hfit.
  - cbn. rewrite app_nil_r, set_audio_buffer_same. reflexivity.
  - change (total_samples (chunk :: chunks))
      with (shape0 chunk + total_samples chunks) in Hfit.
    pose proof (total_samples_nonneg chunks).
    cbn [map apply_ops apply_op].
    rewrite (add_audio_chunk_fits chunk st s Hn) by lia.
    rewrite bind_Return, IH.
    + cbn [audio_buffer set_audio_buffer]. rewrite <- app_assoc.
      reflexivity.
    + cbn [audio_buffer set_audio_buffer]. rewrite total_samples_app.
      cbn [total_samples fold_right].
      rewrite (normalize_shape chunk st Hn). lia.
Qed.

(** X7. Chunks appended while the buffer stays within its capacity are all
    kept, in the order of arrival; the next drain hands the worker the
    samples already buffered followed by the normalised chunks, and leaves
    the buffer empty. *)
Theorem appended_chunks_drain_in_order (chunks stored : list tensor)
  (s : session) :
  Forall2 (fun chunk st => normalize chunk = Some st) chunks stored ->
  chunks <> [] ->
  total_samples (audio_buffer s) + total_samples chunks
    <= max_buffer_samples cfg ->
  exists s',
    apply_ops cfg (map OpAppend chunks) s = Return s' /\
    audio_buffer s' = audio_buffer s ++ stored /\
    drain_all s'
    = Some (cat (audio_buffer s) ++ cat stored, set_audio_buffer [] s).
Proof.
  intros H Hne Hfit. eexists. split; [exact (appends_fit _ _ _ H Hfit)|].
  split; [reflexivity|]. unfold drain_all.
  cbn [audio_buffer set_audio_buffer].
  destruct (audio_buffer s ++ stored) as [|b0 b] eqn:E.
  - apply app_eq_nil in E. destruct E as [_ ->]. inversion H. subst.
    contradiction.
  - rewrite <- E. unfold cat. rewrite concat_app. reflexivity.
Qed.

End IngestorOutcomes.

(** ** More on the worker loop *)

Lemma firstn_add_skipn {A : Type} (a b : nat) (l : list A) :
  firstn (a + b) l = firstn a l ++ firstn b (skipn a l).
Proof.
  revert l. induction a as [|a IH]; intros l; [reflexivity|].
  destruct l as [|x l]; cbn.
  - rewrite firstn_nil. reflexivity.
  - rewrite IH. reflexivity.
Qed.

Lemma concat_windows {A : Type} (c K : nat) (l : list A) :
  concat (map (fun k => firstn c (skipn (k * c) l)) (seq 0 K))
  = firstn (K * c) l.
Proof.
  induction K as [|K IH]; [reflexivity|].
  rewrite seq_S, map_app, concat_app, IH. cbn [map concat plus].
  rewrite app_nil_r, <- firstn_add_skipn. f_equal. lia.
Qed.

Lemma window_slice (cs : Z) (audio : tensor) (k : nat) :
  0 < cs -> Z.of_nat k * cs < shape0 audio ->
  slice (Z.of_nat k * cs) (Z.min (Z.of_nat k * cs + cs) (shape0 audio)) audio
  = firstn (Z.to_nat cs) (skipn (k * Z.to_nat cs) audio).
Proof.
  intros Hcs Hk. unfold slice.
  assert (E : Z.to_nat (Z.of_nat k * cs) = (k * Z.to_nat cs)%nat)
    by (rewrite Z2Nat.inj_mul, Nat2Z.id by lia; reflexivity).
  rewrite E.
  assert (Hlen : length (skipn (k * Z.to_nat cs) audio)
                 = Z.to_nat (shape0 audio - Z.of_nat k * cs)).
  { rewrite length_skipn. unfold shape0 in *. rewrite <- E. lia. }
  destruct (Z.le_gt_cases (Z.of_nat k * cs + cs) (shape0 audio)) as [H|H].
  - rewrite Z.min_l by exact H. f_equal. f_equal. lia.
  - rewrite Z.min_r by lia. rewrite !firstn_all2; [reflexivity | |];
      rewrite Hlen; lia.
Qed.

Lemma range_step_below (n step : Z) (k : nat) :
  0 < step -> In k (seq 0 (Z.to_nat (ceil_div n step))) ->
  Z.of_nat k * step < n.
Proof.
  intros Hs Hin. apply in_seq in Hin.
  destruct (Z.le_gt_cases n 0) as [Hn|Hn].
  - assert (ceil_div n step <= 0).
    { unfold ceil_div. apply Z.lt_succ_r. apply Z.div_lt_upper_bound; lia. }
    lia.
  - pose proof (ceil_div_spec n step Hs) as [H1 _]. nia.
Qed.

Lemma subchunks_windows (cfg : config) (audio : tensor) :
  0 < chunk_size cfg ->
  subchunks cfg audio
  = map (fun k => firstn (Z.to_nat (chunk_size cfg))
                    (skipn (k * Z.to_nat (chunk_size cfg)) audio))
      (seq 0 (Z.to_nat (ceil_div (shape0 audio) (chunk_size cfg)))).
Proof.
  intros Hcs. unfold subchunks, range_step. rewrite map_map.
  apply map_ext_in. intros k Hk. apply window_slice; [exact Hcs|].
  exact (range_step_below _ _ k Hcs Hk).
Qed.

Lemma ceil_div_nonneg (a b : Z) : 0 <= a -> 0 < b -> 0 <= ceil_div a b.
Proof. intros Ha Hb. unfold ceil_div. apply Z.div_pos; lia. Qed.

Section WorkerFacts.

Context {Text Stamp : Type}.
Variable recognize_audio : tensor -> Text.
Variable format_time : Q -> Stamp.
Variable time_time : nat -> Q.
Variable cfg : config.

Abbreviation session := (@stream Text Stamp).
Abbreviation step := (on_subchunk recognize_audio format_time time_time cfg).
Abbreviation run := (run_classified recognize_audio format_time time_time cfg).
Abbreviation turn :=
  (_process_stream_step recognize_audio format_time time_time cfg).

Lemma subchunks_cat (audio : tensor) :
  0 < chunk_size cfg -> cat (subchunks cfg audio) = audio.
Proof.
  intros Hcs. rewrite (subchunks_windows cfg audio Hcs).
  pose proof (ceil_div_nonneg (shape0 audio) (chunk_size cfg)
                (shape0_nonneg audio) Hcs) as Hk.
  pose proof (ceil_div_spec (shape0 audio) (chunk_size cfg) Hcs) as [_ Hup].
  unfold cat. rewrite concat_windows. apply firstn_all2.
  apply Nat2Z.inj_le. rewrite Nat2Z.inj_mul, !Z2Nat.id by lia.
  unfold shape0 in *. lia.
Qed.

(** X8. For a positive [chunk_size] the sub-chunks cut from a drained block
    partition it: joined in order they give the block back, there are
    ceil(n / chunk_size) of them, and each holds at least one and at most
    [chunk_size] samples. *)
Theorem subchunks_partition (audio : tensor) :
  0 < chunk_size cfg ->
  cat (subchunks cfg audio) = audio /\
  Z.of_nat (length (subchunks cfg audio))
    = ceil_div (shape0 audio) (chunk_size cfg) /\
  Forall (fun c => 0 < shape0 c <= chunk_size cfg) (subchunks cfg audio).
Proof.
  intros Hcs. split; [exact (subchunks_cat audio Hcs)|].
  rewrite (subchunks_windows cfg audio Hcs).
  pose proof (ceil_div_nonneg (shape0 audio) (chunk_size cfg)
                (shape0_nonneg audio) Hcs) as Hk.
  split.
  - rewrite length_map, length_seq, Z2Nat.id by lia. reflexivity.
  - apply Forall_forall. intros c Hc. apply in_map_iff in Hc.
    destruct Hc as [k [<- Hin]].
    pose proof (range_step_below _ _ k Hcs Hin) as Hlt.
    unfold shape0 in *. rewrite length_firstn, length_skipn. nia.
Qed.

Lemma step_returns (f : bool) (subchunk : tensor) (s : session) :
  stabilization_frames cfg <> 0 -> sample_rate cfg <> 0 ->
  exists s', step f subchunk s = Return s'.
Proof.
  intros Hsf Hsr. destruct f.
  - destruct (speech_step recognize_audio format_time time_time cfg
                subchunk s Hsf Hsr) as [s' [H _]].
    exists s'. exact H.
  - unfold on_subchunk. destruct (is_speaking s); [|eexists; reflexivity].
    match goal with
    | |- context [if ?c then _ else _] => destruct c
    end; [|eexists; reflexivity].
    match goal with
    | |- context [_finalize_speech_segment _ _ _ _ ?s1] =>
        destruct (finalize_returns recognize_audio format_time time_time
                    cfg s1) as [s' [H _]]
    end.
    + cbn [speaking_buffer set_run]. intros E. apply app_eq_nil in E.
      destruct E as [_ E]. discriminate E.
    + exact Hsr.
    + exists s'. exact H.
Qed.

Lemma run_returns (chunks : list (bool * tensor)) (s : session) :
  stabilization_frames cfg <> 0 -> sample_rate cfg <> 0 ->
  exists s', run chunks s = Return s'.
Proof.
  intros Hsf Hsr. revert s.
  induction chunks as [|[f c] rest IH]; intros s; [eexists; reflexivity|].
  cbn [run_classified]. destruct (step_returns f c s Hsf Hsr) as [s1 ->].
  rewrite bind_Return. exact (IH s1).
Qed.

Lemma turn_returns (s : session) :
  stabilization_frames cfg <> 0 -> sample_rate cfg <> 0 ->
  chunk_size cfg <> 0 ->
  exists s', turn s = Return s'.
Proof.
  intros Hsf Hsr Hcs. unfold _process_stream_step.
  destruct (running s) eqn:Hrun; [|eexists; reflexivity]. cbn [negb].
  destruct (drain_all s) as [[audio s0]|] eqn:Hd; [|eexists; reflexivity].
  rewrite (proj2 (Z.eqb_neq _ _) Hcs).
  destruct (chunk_size cfg <? 0); [eexists; reflexivity|].
  assert (Hrun0 : running s0 = true).
  { unfold drain_all in Hd. destruct (audio_buffer s); [discriminate|].
    injection Hd as _ <-. exact Hrun. }
  rewrite (process_subchunks_all_speech recognize_audio format_time
             time_time cfg _ s0 Hrun0).
  exact (run_returns (speech (subchunks cfg audio)) s0 Hsf Hsr).
Qed.

(** X9. With [stabilization_frames] and [sample_rate] different from zero
    the segmentation loop itself never raises, whatever the sub-chunks are
    and however they are classified; if [chunk_size] is not zero either, a
    whole turn of the worker loop returns.  (The recogniser, [format_time]
    and the callback are parameters here; what they may raise is theirs.) *)
Theorem worker_never_raises :
  stabilization_frames cfg <> 0 -> sample_rate cfg <> 0 ->
  (forall (chunks : list (bool * tensor)) (s : session),
     returns (run chunks s) = true) /\
  (chunk_size cfg <> 0 ->
   forall s : session, returns (turn s) = true).
Proof.
  intros Hsf Hsr. split.
  - intros chunks s. destruct (run_returns chunks s Hsf Hsr) as [s' ->].
    reflexivity.
  - intros Hcs s. destruct (turn_returns s Hsf Hsr Hcs) as [s' ->].
    reflexivity.
Qed.

(** No step of the loop touches [audio_buffer]. *)
Lemma step_audio_buffer (f : bool) (subchunk : tensor) (s : session) :
  audio_buffer (state_of (step f subchunk s)) = audio_buffer s.
Proof.
  unfold on_subchunk. destruct f.
  - rewrite speech_run_state.
    set (s1 := set_run true 0 (run_buffer s ++ [subchunk]) s).
    destruct (stabilization_frames cfg =? 0); [reflexivity|].
    destruct (_ mod _ =? 0); [|reflexivity].
    unfold _perform_interim_recognition.
    destruct (speaking_buffer s1); [reflexivity|].
    simpl. destruct (sample_rate cfg =? 0); reflexivity.
  - destruct (is_speaking s); [|reflexivity].
    set (s1 := set_run true _ _ s).
    destruct (min_silence_samples cfg <=? silence_counter s1); [|reflexivity].
    unfold _finalize_speech_segment.
    destruct (speaking_buffer s1); [reflexivity|].
    simpl. destruct (sample_rate cfg =? 0); reflexivity.
Qed.

Lemma run_audio_buffer (chunks : list (bool * tensor)) (s : session) :
  audio_buffer (state_of (run chunks s)) = audio_buffer s.
Proof.
  revert s. induction chunks as [|[f c] rest IH]; intros s; [reflexivity|].
  cbn [run_classified]. pose proof (step_audio_buffer f c s) as H.
  destruct (step f c s) as [s1|e s1]; cbn [bind state_of] in *;
    [rewrite IH|]; exact H.
Qed.

Lemma drain_all_some (s : session) :
  cat (audio_buffer s) <> [] ->
  drain_all s = Some (cat (audio_buffer s), set_audio_buffer [] s).
Proof.
  intros H. unfold drain_all. destruct (audio_buffer s); [|reflexivity].
  contradiction H. reflexivity.
Qed.

Lemma subchunks_nonempty (audio : tensor) :
  0 < chunk_size cfg -> audio <> [] -> subchunks cfg audio <> [].
Proof.
  intros Hcs Ha E. pose proof (subchunks_cat audio Hcs) as H.
  rewrite E in H. apply Ha. symmetry. exact H.
Qed.

(** X10. With the detector as the source has it, a turn of the worker loop
    on a buffer that holds samples empties [audio_buffer] and appends all
    of its sub-chunks to the run in progress: the session is speaking, the
    run's audio is what it was followed by everything drained, and no
    final result is added. *)
Theorem worker_turn_accumulates (s : session) :
  0 < chunk_size cfg ->
  stabilization_frames cfg <> 0 ->
  sample_rate cfg <> 0 ->
  running s = true ->
  cat (audio_buffer s) <> [] ->
  exists s',
    turn s = Return s' /\
    audio_buffer s' = [] /\
    is_speaking s' = true /\
    speaking_buffer s' = run_buffer s ++ subchunks cfg (cat (audio_buffer s)) /\
    cat (speaking_buffer s') = cat (run_buffer s) ++ cat (audio_buffer s) /\
    final_results s' = final_results s.
Proof.
  intros Hcs Hsf Hsr Hrun Hne. unfold _process_stream_step.
  rewrite Hrun. cbn [negb]. rewrite (drain_all_some s Hne).
  rewrite (proj2 (Z.eqb_neq _ _)) by lia.
  rewrite (proj2 (Z.ltb_ge _ _)) by lia.
  rewrite (process_subchunks_all_speech recognize_audio format_time
             time_time cfg _ (set_audio_buffer [] s) Hrun).
  destruct (speech_phase recognize_audio format_time time_time cfg
              (subchunks cfg (cat (audio_buffer s))) (set_audio_buffer [] s)
              Hsf Hsr (subchunks_nonempty _ Hcs Hne))
    as [s' [H1 [H2 [_ [H4 H5]]]]].
  exists s'. split; [exact H1|].
  pose proof (run_audio_buffer
                (speech (subchunks cfg (cat (audio_buffer s))))
                (set_audio_buffer [] s)) as Hb.
  rewrite H1 in Hb. split; [exact Hb|]. split; [exact H2|].
  split; [exact H4|]. split; [|exact H5].
  rewrite H4. unfold cat at 1. rewrite concat_app.
  change (concat (subchunks cfg (cat (audio_buffer s))))
    with (cat (subchunks cfg (cat (audio_buffer s)))).
  rewrite (subchunks_cat _ Hcs). reflexivity.
Qed.

Lemma div_succ (m d : Z) :
  0 < d -> 0 <= m ->
  ((m + 1) mod d = 0 -> (m + 1) / d = m / d + 1) /\
  ((m + 1) mod d <> 0 -> (m + 1) / d = m / d).
Proof.
  intros Hd Hm.
  pose proof (Z.div_mod m d ltac:(lia)) as E1.
  pose proof (Z.div_mod (m + 1) d ltac:(lia)) as E2.
  pose proof (Z.mod_pos_bound m d Hd) as B1.
  pose proof (Z.mod_pos_bound (m + 1) d Hd) as B2.
  split; intros H; nia.
Qed.

(** X11. A stretch of k speech sub-chunks that meets a run of m sub-chunks
    adds floor((m + k) / N) - floor(m / N) interim results, N being
    [stabilization_frames], and reads the clock once for each; from an
    idle session that is floor(k / N). *)
Theorem interim_count (chunks : list tensor) (s : session) :
  0 < stabilization_frames cfg ->
  sample_rate cfg <> 0 ->
  let m := Z.of_nat (length (run_buffer s)) in
  let k := Z.of_nat (length chunks) in
  let added :=
    (m + k) / stabilization_frames cfg - m / stabilization_frames cfg in
  exists s',
    run (speech chunks) s = Return s' /\
    Z.of_nat (length (interim_results s'))
      = Z.of_nat (length (interim_results s)) + added /\
    Z.of_nat (clock_reads s') = Z.of_nat (clock_reads s) + added /\
    (is_speaking s = false -> added = k / stabilization_frames cfg).
Proof.
  intros Hsf Hsr. revert s.
  induction chunks as [|c chunks IH]; intros s m k added.
  - exists s. subst added k. cbn [length Z.of_nat]. rewrite Z.add_0_r.
    split; [reflexivity|]. split; [lia|]. split; [lia|].
    intros _. rewrite Z.div_0_l by lia. lia.
  - destruct (speech_step recognize_audio format_time time_time cfg c s
                ltac:(lia) Hsr)
      as [s1 [H1 [H2 [_ [H4 [_ [_ [Hyes Hno]]]]]]]].
    destruct (IH s1) as [s' [R1 [R2 [R3 _]]]].
    assert (Hm1 : Z.of_nat (length (run_buffer s1)) = m + 1).
    { unfold run_buffer at 1. rewrite H2, H4, length_app. cbn [length].
      subst m. lia. }
    rewrite Hm1 in R2, R3.
    assert (Hk : k = Z.of_nat (length chunks) + 1)
      by (subst k; cbn [length]; lia).
    rewrite H4, length_app in Hyes, Hno. cbn [length] in Hyes, Hno.
    replace (Z.of_nat (length (run_buffer s) + 1)) with (m + 1)
      in Hyes, Hno by (subst m; lia).
    assert (Hm : 0 <= m) by (subst m; lia).
    destruct (div_succ m (stabilization_frames cfg) Hsf Hm) as [D1 D2].
    exists s'. split.
    { change (run (speech (c :: chunks)) s)
        with (bind (step true c s) (run (speech chunks))).
      rewrite H1, bind_Return. exact R1. }
    replace (m + 1 + Z.of_nat (length chunks)) with (m + k) in R2, R3 by lia.
    assert (Hadd :
      Z.of_nat (length (interim_results s'))
        = Z.of_nat (length (interim_results s)) + added /\
      Z.of_nat (clock_reads s') = Z.of_nat (clock_reads s) + added).
    { destruct (Z.eq_dec ((m + 1) mod stabilization_frames cfg) 0) as [E|E].
      - destruct (Hyes E) as [Hi Hc]. rewrite Hi, length_app in R2.
        cbn [length] in R2. rewrite Hc in R3. specialize (D1 E).
        subst added. split; lia.
      - destruct (Hno E) as [Hi Hc]. rewrite Hi in R2. rewrite Hc in R3.
        specialize (D2 E). subst added. split; lia. }
    split; [exact (proj1 Hadd)|]. split; [exact (proj2 Hadd)|].
    intros Hidle. subst added m. unfold run_buffer. rewrite Hidle.
    cbn [length Z.of_nat]. rewrite Z.add_0_l, Z.div_0_l by lia. lia.
Qed.

Lemma run_invariant (P : session -> Prop) :
  (forall f c s, P s -> P (state_of (step f c s))) ->
  forall chunks s, P s -> P (state_of (run chunks s)).
Proof.
  intros Hstep chunks.
  induction chunks as [|[f c] rest IH]; intros s Hs; [exact Hs|].
  cbn [run_classified]. pose proof (Hstep f c s Hs) as H.
  destruct (step f c s) as [s1|e s1]; cbn [bind state_of] in *;
    [apply IH|]; exact H.
Qed.

Abbreviation delivered s :=
  (filter (@is_final Text Stamp) (callback_log s) = final_results s /\
   filter (fun r => negb (@is_final Text Stamp r)) (callback_log s)
   = interim_results s).

Lemma step_delivered (f : bool) (subchunk : tensor) (s : session) :
  callback cfg = true -> delivered s ->
  delivered (state_of (step f subchunk s)).
Proof.
  intros Hcb [Hf Hi]. unfold on_subchunk. destruct f.
  - rewrite speech_run_state.
    set (s1 := set_run true 0 (run_buffer s ++ [subchunk]) s).
    destruct (stabilization_frames cfg =? 0); [split; assumption|].
    destruct (_ mod _ =? 0); [|split; assumption].
    unfold _perform_interim_recognition.
    destruct (speaking_buffer s1); [split; assumption|].
    cbv zeta. destruct (sample_rate cfg =? 0); [split; assumption|].
    unfold call_back. rewrite Hcb.
    cbn [state_of callback_log final_results interim_results read_clock
         set_run s1].
    rewrite !filter_app. cbn. rewrite app_nil_r, Hf, Hi.
    split; reflexivity.
  - destruct (is_speaking s); [|split; assumption].
    set (s1 := set_run true _ _ s).
    destruct (min_silence_samples cfg <=? silence_counter s1);
      [|split; assumption].
    unfold _finalize_speech_segment.
    destruct (speaking_buffer s1); [split; assumption|].
    cbv zeta. destruct (sample_rate cfg =? 0); [split; assumption|].
    unfold call_back. rewrite Hcb.
    cbn [state_of callback_log final_results interim_results read_clock
         set_run s1].
    rewrite !filter_app. cbn. rewrite app_nil_r, Hf, Hi.
    split; reflexivity.
Qed.

Lemma step_no_callback (f : bool) (subchunk : tensor) (s : session) :
  callback cfg = false ->
  callback_log (state_of (step f subchunk s)) = callback_log s.
Proof.
  intros Hcb. unfold on_subchunk. destruct f.
  - rewrite speech_run_state.
    set (s1 := set_run true 0 (run_buffer s ++ [subchunk]) s).
    destruct (stabilization_frames cfg =? 0); [reflexivity|].
    destruct (_ mod _ =? 0); [|reflexivity].
    unfold _perform_interim_recognition.
    destruct (speaking_buffer s1); [reflexivity|].
    cbv zeta. destruct (sample_rate cfg =? 0); [reflexivity|].
    unfold call_back. rewrite Hcb. reflexivity.
  - destruct (is_speaking s); [|reflexivity].
    set (s1 := set_run true _ _ s).
    destruct (min_silence_samples cfg <=? silence_counter s1); [|reflexivity].
    unfold _finalize_speech_segment.
    destruct (speaking_buffer s1); [reflexivity|].
    cbv zeta. destruct (sample_rate cfg =? 0); [reflexivity|].
    unfold call_back. rewrite Hcb. reflexivity.
Qed.

(** X12. In a session that was given a callback and is never reset, the
    callback has received every result exactly once and in order: the
    final results it was handed are [final_results], the others are
    [interim_results], also when the loop ends by raising.  Without a
    callback nothing is delivered. *)
Theorem callback_receives_every_result (chunks : list (bool * tensor)) :
  let s' := state_of (run chunks (@initial_stream Text Stamp)) in
  (callback cfg = true ->
   filter (@is_final Text Stamp) (callback_log s') = final_results s' /\
   filter (fun r => negb (@is_final Text Stamp r)) (callback_log s')
   = interim_results s') /\
  (callback cfg = false -> callback_log s' = []).
Proof.
  intros s'. split.
  - intros Hcb. subst s'.
    apply (run_invariant (fun s => delivered s)).
    + intros f c s. exact (step_delivered f c s Hcb).
    + split; reflexivity.
  - intros Hcb. subst s'.
    apply (run_invariant (fun s => callback_log s = [])).
    + intros f c s Hs. rewrite (step_no_callback f c s Hcb). exact Hs.
    + reflexivity.
Qed.

(** X13. What a turn of the worker loop does to a buffer that holds samples
    when the configuration is ill-formed.  A [chunk_size] of zero raises
    [ValueError] from [range]; a negative one makes the loop empty; with
    [stabilization_frames] zero the first sub-chunk starts a run and the
    modulo raises [ZeroDivisionError].  In all three cases the drained
    audio is gone from [audio_buffer]. *)
Theorem worker_turn_ill_formed (s : session) :
  running s = true ->
  cat (audio_buffer s) <> [] ->
  (chunk_size cfg = 0 ->
   turn s = Raise (ValueError "range() arg 3 must not be zero"%string)
              (set_audio_buffer [] s)) /\
  (chunk_size cfg < 0 -> turn s = Return (set_audio_buffer [] s)) /\
  (0 < chunk_size cfg -> stabilization_frames cfg = 0 ->
   exists c rest,
     subchunks cfg (cat (audio_buffer s)) = c :: rest /\
     turn s = Raise ZeroDivisionError
                (set_run true 0 (run_buffer s ++ [c])
                   (set_audio_buffer [] s))).
Proof.
  intros Hrun Hne. unfold _process_stream_step. rewrite Hrun. cbn [negb].
  rewrite (drain_all_some s Hne). split; [|split].
  - intros ->. reflexivity.
  - intros Hcs. rewrite (proj2 (Z.eqb_neq _ _)) by lia.
    rewrite (proj2 (Z.ltb_lt _ _) Hcs). reflexivity.
  - intros Hcs Hsf. rewrite (proj2 (Z.eqb_neq _ _)) by lia.
    rewrite (proj2 (Z.ltb_ge _ _)) by lia.
    destruct (subchunks cfg (cat (audio_buffer s))) as [|c rest] eqn:E;
      [exact (False_ind _ (subchunks_nonempty _ Hcs Hne E))|].
    exists c, rest. split; [reflexivity|].
    cbn [process_subchunks]. change (running (set_audio_buffer [] s))
      with (running s). rewrite Hrun. cbn [negb].
    unfold process_subchunk, _detect_speech, on_subchunk.
    rewrite speech_run_state, Hsf. reflexivity.
Qed.

Lemma step_flags (f : bool) (subchunk : tensor) (s : session) :
  Forall (fun r => @is_final Text Stamp r = true) (final_results s) /\
  Forall (fun r => @is_final Text Stamp r = false) (interim_results s) ->
  Forall (fun r => @is_final Text Stamp r = true)
    (final_results (state_of (step f subchunk s))) /\
  Forall (fun r => @is_final Text Stamp r = false)
    (interim_results (state_of (step f subchunk s))).
Proof.
  intros [Hf Hi]. unfold on_subchunk. destruct f.
  - rewrite speech_run_state.
    set (s1 := set_run true 0 (run_buffer s ++ [subchunk]) s).
    destruct (stabilization_frames cfg =? 0); [split; assumption|].
    destruct (_ mod _ =? 0); [|split; assumption].
    unfold _perform_interim_recognition.
    destruct (speaking_buffer s1); [split; assumption|].
    cbv zeta. destruct (sample_rate cfg =? 0); [split; assumption|].
    cbn [state_of final_results interim_results read_clock set_run s1].
    split; [exact Hf|]. apply Forall_app. split; [exact Hi|].
    constructor; [reflexivity | constructor].
  - destruct (is_speaking s); [|split; assumption].
    set (s1 := set_run true _ _ s).
    destruct (min_silence_samples cfg <=? silence_counter s1);
      [|split; assumption].
    unfold _finalize_speech_segment.
    destruct (speaking_buffer s1); [split; assumption|].
    cbv zeta. destruct (sample_rate cfg =? 0); [split; assumption|].
    cbn [state_of final_results interim_results read_clock set_run s1].
    split; [|exact Hi]. apply Forall_app. split; [exact Hf|].
    constructor; [reflexivity | constructor].
Qed.

Lemma step_appends (f : bool) (subchunk : tensor) (s : session) :
  (exists l, final_results (state_of (step f subchunk s))
             = final_results s ++ l) /\
  (exists l, interim_results (state_of (step f subchunk s))
             = interim_results s ++ l).
Proof.
  assert (Hsame : forall s0 : session,
            (exists l, final_results s0 = final_results s0 ++ l) /\
            (exists l, interim_results s0 = interim_results s0 ++ l)).
  { intros s0. split; exists []; rewrite app_nil_r; reflexivity. }
  unfold on_subchunk. destruct f.
  - rewrite speech_run_state.
    set (s1 := set_run true 0 (run_buffer s ++ [subchunk]) s).
    destruct (stabilization_frames cfg =? 0); [exact (Hsame s)|].
    destruct (_ mod _ =? 0); [|exact (Hsame s)].
    unfold _perform_interim_recognition.
    destruct (speaking_buffer s1); [exact (Hsame s)|].
    cbv zeta. destruct (sample_rate cfg =? 0); [exact (Hsame s)|].
    cbn [state_of final_results interim_results read_clock set_run s1].
    split; [exact (proj1 (Hsame s)) | eexists; reflexivity].
  - destruct (is_speaking s); [|exact (Hsame s)].
    set (s1 := set_run true _ _ s).
    destruct (min_silence_samples cfg <=? silence_counter s1);
      [|exact (Hsame s)].
    unfold _finalize_speech_segment.
    destruct (speaking_buffer s1); [exact (Hsame s)|].
    cbv zeta. destruct (sample_rate cfg =? 0); [exact (Hsame s)|].
    cbn [state_of final_results interim_results read_clock set_run s1].
    split; [eexists; reflexivity | exact (proj2 (Hsame s))].
Qed.

(** X26. The loop only ever appends to the two result lists: what was in
    [final_results] and [interim_results] before a stretch of sub-chunks is
    still there, in place, after it.  In a session that started empty,
    every entry of [final_results] is flagged final and no entry of
    [interim_results] is. *)
Theorem results_are_append_only (chunks : list (bool * tensor))
  (s : session) :
  (exists l, final_results (state_of (run chunks s)) = final_results s ++ l) /\
  (exists l,
     interim_results (state_of (run chunks s)) = interim_results s ++ l) /\
  Forall (fun r => @is_final Text Stamp r = true)
    (final_results (state_of (run chunks (@initial_stream Text Stamp)))) /\
  Forall (fun r => @is_final Text Stamp r = false)
    (interim_results (state_of (run chunks (@initial_stream Text Stamp)))).
Proof.
  assert (Happ :
    (exists l, final_results (state_of (run chunks s))
               = final_results s ++ l) /\
    (exists l, interim_results (state_of (run chunks s))
               = interim_results s ++ l)).
  { apply (run_invariant
             (fun s' : session =>
                (exists l, final_results s' = final_results s ++ l) /\
                (exists l, interim_results s' = interim_results s ++ l))).
    - intros f c s0 [[lf Hf] [li Hi]].
      destruct (step_appends f c s0) as [[lf' Hf'] [li' Hi']].
      split.
      + exists (lf ++ lf'). rewrite Hf', Hf, app_assoc. reflexivity.
      + exists (li ++ li'). rewrite Hi', Hi, app_assoc. reflexivity.
    - split; exists []; rewrite app_nil_r; reflexivity. }
  split; [exact (proj1 Happ)|]. split; [exact (proj2 Happ)|].
  apply (run_invariant
           (fun s' : session =>
              Forall (fun r => @is_final Text Stamp r = true)
                (final_results s') /\
              Forall (fun r => @is_final Text Stamp r = false)
                (interim_results s'))).
  - intros f c s0. exact (step_flags f c s0).
  - split; constructor.
Qed.

Lemma step_stamps (f : bool) (subchunk : tensor) (s : session) :
  callback cfg = true -> sample_rate cfg <> 0 ->
  map (@end_time Text Stamp) (callback_log s)
  = map (fun i => format_time (time_time i)) (seq 0 (clock_reads s)) ->
  map (@end_time Text Stamp) (callback_log (state_of (step f subchunk s)))
  = map (fun i => format_time (time_time i))
      (seq 0 (clock_reads (state_of (step f subchunk s)))).
Proof.
  intros Hcb Hsr H. apply Z.eqb_neq in Hsr. unfold on_subchunk. destruct f.
  - rewrite speech_run_state.
    set (s1 := set_run true 0 (run_buffer s ++ [subchunk]) s).
    destruct (stabilization_frames cfg =? 0); [exact H|].
    destruct (_ mod _ =? 0); [|exact H].
    unfold _perform_interim_recognition.
    destruct (speaking_buffer s1); [exact H|].
    cbv zeta. rewrite Hsr. unfold call_back. rewrite Hcb.
    cbn [state_of callback_log clock_reads read_clock set_run s1].
    rewrite seq_S, !map_app, H. reflexivity.
  - destruct (is_speaking s); [|exact H].
    set (s1 := set_run true _ _ s).
    destruct (min_silence_samples cfg <=? silence_counter s1); [|exact H].
    unfold _finalize_speech_segment.
    destruct (speaking_buffer s1); [exact H|].
    cbv zeta. rewrite Hsr. unfold call_back. rewrite Hcb.
    cbn [state_of callback_log clock_reads read_clock set_run s1].
    rewrite seq_S, !map_app, H. reflexivity.
Qed.

(** X27. The time stamps of the results are readings of the wall clock,
    not positions in the audio: in a session with a callback and a sample
    rate that is not zero, the clock is read once for each result, and the
    i-th result handed to the callback has the i-th reading as its
    [end_time]. *)
Theorem results_are_stamped_by_the_clock (chunks : list (bool * tensor)) :
  callback cfg = true ->
  sample_rate cfg <> 0 ->
  let s' := state_of (run chunks (@initial_stream Text Stamp)) in
  clock_reads s' = length (callback_log s') /\
  map (@end_time Text Stamp) (callback_log s')
  = map (fun i => format_time (time_time i)) (seq 0 (clock_reads s')).
Proof.
  intros Hcb Hsr s'.
  assert (H : map (@end_time Text Stamp) (callback_log s')
              = map (fun i => format_time (time_time i))
                  (seq 0 (clock_reads s'))).
  { subst s'.
    apply (run_invariant
             (fun s : session =>
                map (@end_time Text Stamp) (callback_log s)
                = map (fun i => format_time (time_time i))
                    (seq 0 (clock_reads s)))).
    - intros f c s. exact (step_stamps f c s Hcb Hsr).
    - reflexivity. }
  split; [|exact H].
  apply (f_equal (@length Stamp)) in H.
  rewrite !length_map, length_seq in H. symmetry. exact H.
Qed.

End WorkerFacts.

(** ** More on the detectors *)

Lemma Qsquare_nonneg (x : Q) : (0 <= x * x)%Q.
Proof.
  unfold Qle, Qmult. cbn. rewrite Z.mul_1_r. apply Z.square_nonneg.
Qed.

Lemma sum_squares_nonneg (audio : tensor) :
  (0 <= fold_right (fun x acc => x * x + acc) 0 audio)%Q.
Proof.
  induction audio as [|x audio IH]; cbn [fold_right]; [apply Qle_refl|].
  exact (Qplus_le_compat 0 (x * x) 0 _ (Qsquare_nonneg x) IH).
Qed.

Lemma sum_squares_zero (audio : tensor) :
  Forall (fun x => x == 0)%Q audio ->
  (fold_right (fun x acc => x * x + acc) 0 audio == 0)%Q.
Proof.
  induction 1 as [|x audio Hx _ IH]; cbn [fold_right]; [reflexivity|].
  rewrite IH, Hx. reflexivity.
Qed.

Lemma mean_square_nonneg (audio : tensor) :
  audio <> [] -> (0 <= mean_square audio)%Q.
Proof.
  intros Hne. unfold mean_square.
  assert (Hn : (0 < inject_Z (shape0 audio))%Q).
  { rewrite <- (Zlt_Qlt 0). unfold shape0.
    destruct audio; [contradiction|]. cbn [length]. lia. }
  apply Qle_shift_div_l; [exact Hn|]. rewrite Qmult_0_l.
  apply sum_squares_nonneg.
Qed.

Section DetectorEdges.

Context {Text Stamp : Type}.
Variable cfg : config.

Abbreviation session := (@stream Text Stamp).

(** X14. The energy detector at its edges.  An empty tensor is never
    speech.  With a threshold that is not negative, a tensor of zeros is
    not speech; with a negative threshold, every tensor that holds a
    sample is. *)
Theorem detect_speech_energy_edges (audio : tensor) :
  _detect_speech_energy cfg [] = false /\
  ((0 <= threshold cfg)%Q -> Forall (fun x => x == 0)%Q audio ->
   _detect_speech_energy cfg audio = false) /\
  ((threshold cfg < 0)%Q -> audio <> [] ->
   _detect_speech_energy cfg audio = true).
Proof.
  split; [reflexivity|]. split.
  - intros Ht Hz. destruct audio as [|x audio]; [reflexivity|].
    unfold _detect_speech_energy. apply Qgt_bool_false.
    unfold mean_square. rewrite (sum_squares_zero _ Hz).
    unfold Qdiv. rewrite Qmult_0_l. exact Ht.
  - intros Ht Hne. destruct audio as [|x audio]; [contradiction|].
    unfold _detect_speech_energy. apply Qgt_bool_true.
    eapply Qlt_le_trans; [exact Ht|]. apply mean_square_nonneg. exact Hne.
Qed.

(** X15. In [_detect_speech_vad] only the first segment of the timeline
    that ends after the limit (half a second before the end of the window)
    decides: the answer is [True] exactly when such a segment exists and
    its score, or 1.0 when it has none, exceeds [vad_threshold]; later
    segments are not looked at. *)
Theorem tail_speech_first_late_segment (limit : Q)
  (timeline : list vad_segment) :
  tail_speech cfg limit timeline = true <->
  exists early segment later,
    timeline = early ++ segment :: later /\
    Forall (fun g => (seg_end g <= limit)%Q) early /\
    (limit < seg_end segment)%Q /\
    (vad_threshold cfg
     < match seg_score segment with Some p => p | None => 1 end)%Q.
Proof.
  split.
  - induction timeline as [|g rest IH]; [discriminate|]. cbn [tail_speech].
    destruct (Qgt_bool (seg_end g) limit) eqn:E.
    + intros H. exists [], g, rest. split; [reflexivity|].
      split; [constructor|]. split; apply Qgt_bool_true; assumption.
    + intros H. destruct (IH H) as [early [seg [later [-> [H1 [H2 H3]]]]]].
      exists (g :: early), seg, later. split; [reflexivity|].
      split; [|split; assumption].
      constructor; [apply Qgt_bool_false; exact E | exact H1].
  - intros [early [seg [later [-> [H1 [H2 H3]]]]]].
    induction H1 as [|g early Hg _ IH]; cbn [app tail_speech].
    + rewrite (proj2 (Qgt_bool_true _ _) H2).
      apply Qgt_bool_true. exact H3.
    + rewrite (proj2 (Qgt_bool_false _ _) Hg). exact IH.
Qed.

End DetectorEdges.

Section DetectorWindow.

Context {Text Stamp : Type}.
Variable cfg : config.

Abbreviation session := (@stream Text Stamp).

(** The session [_detect_speech_vad] leaves once the window is full. *)
Lemma vad_full_window_state (vad : tensor -> option (list vad_segment))
  (audio : tensor) (s : session) :
  use_vad cfg = true ->
  vad_buffer_size cfg <= total_samples (vad_buffer s ++ [audio]) ->
  let b := vad_buffer s ++ [audio] in
  snd (_detect_speech_vad vad cfg audio s)
  = count_vad_call
      (if vad_buffer_size cfg <? shape0 (cat b)
       then set_vad_buffer [slice_from (- vad_buffer_size cfg) (cat b)]
              (set_vad_buffer b s)
       else set_vad_buffer b s).
Proof.
  intros Huse Hfull b. unfold _detect_speech_vad. rewrite Huse.
  cbn [negb]. cbv zeta. cbn [vad_buffer set_vad_buffer]. fold b.
  assert (E : (total_samples b <? vad_buffer_size cfg) = false)
    by (apply Z.ltb_ge; exact Hfull).
  rewrite E. destruct (vad_buffer_size cfg <? shape0 (cat b));
    (destruct (vad _) as [[|seg rest]|]; try reflexivity;
     destruct (sample_rate cfg =? 0); reflexivity).
Qed.

Lemma slice_from_last (n : Z) (t : tensor) :
  0 < n -> n <= shape0 t ->
  slice_from (- n) t = skipn (Z.to_nat (shape0 t - n)) t /\
  shape0 (slice_from (- n) t) = n.
Proof.
  intros Hn Hle. unfold slice_from.
  rewrite (proj2 (Z.ltb_lt _ _)) by lia.
  replace (Z.max 0 (shape0 t + - n)) with (shape0 t - n) by lia.
  split; [reflexivity|]. unfold shape0 in *. rewrite length_skipn. lia.
Qed.

(** X16. With the VAD in use and a positive window size, a call of
    [_detect_speech_vad] leaves in [vad_buffer] the last [vad_buffer_size]
    samples of what it held followed by the new sub-chunk, or all of them
    when they are fewer; the analysis that calls the pipeline is entered
    once if the window is full and not at all otherwise. *)
Theorem vad_window_keeps_last_samples
  (vad : tensor -> option (list vad_segment)) (audio : tensor)
  (s : session) :
  use_vad cfg = true ->
  0 < vad_buffer_size cfg ->
  let total := total_samples (vad_buffer s ++ [audio]) in
  let s' := snd (_detect_speech_vad vad cfg audio s) in
  total_samples (vad_buffer s') = Z.min (vad_buffer_size cfg) total /\
  cat (vad_buffer s')
  = skipn (Z.to_nat (total - vad_buffer_size cfg))
      (cat (vad_buffer s ++ [audio])) /\
  vad_calls s'
  = (if total <? vad_buffer_size cfg then vad_calls s
     else S (vad_calls s)).
Proof.
  intros Huse Hsize total s'.
  destruct (total <? vad_buffer_size cfg) eqn:E.
  - apply Z.ltb_lt in E. subst s'. unfold _detect_speech_vad.
    rewrite Huse. cbn [negb]. cbv zeta. cbn [vad_buffer set_vad_buffer].
    fold total. rewrite (proj2 (Z.ltb_lt _ _) E).
    cbn [snd vad_buffer set_vad_buffer vad_calls]. fold total.
    split; [lia|]. split; [|reflexivity].
    replace (Z.to_nat (total - vad_buffer_size cfg)) with O by lia.
    reflexivity.
  - apply Z.ltb_ge in E. subst s'.
    rewrite (vad_full_window_state vad audio s Huse E). cbv zeta.
    pose proof (shape0_cat (vad_buffer s ++ [audio])) as Hc. fold total in Hc.
    destruct (vad_buffer_size cfg <? shape0 (cat (vad_buffer s ++ [audio])))
      eqn:T.
    + apply Z.ltb_lt in T.
      destruct (slice_from_last (vad_buffer_size cfg)
                  (cat (vad_buffer s ++ [audio])) Hsize ltac:(lia))
        as [H1 H2].
      cbn [count_vad_call vad_buffer set_vad_buffer vad_calls
           total_samples fold_right].
      split; [rewrite H2; lia|]. split; [|reflexivity].
      unfold cat at 1. cbn [concat]. rewrite app_nil_r, H1, Hc. reflexivity.
    + apply Z.ltb_ge in T.
      cbn [count_vad_call vad_buffer set_vad_buffer vad_calls].
      fold total. split; [lia|]. split; [|reflexivity].
      replace (Z.to_nat (total - vad_buffer_size cfg)) with O by lia.
      reflexivity.
Qed.

(** X17. The pipeline is only ever applied to a window of exactly
    [vad_buffer_size] samples: two pipelines that agree on every such
    window make [_detect_speech_vad] give the same answer and leave the
    same session. *)
Theorem vad_sees_only_full_windows
  (vad1 vad2 : tensor -> option (list vad_segment)) (audio : tensor)
  (s : session) :
  0 < vad_buffer_size cfg ->
  (forall window, shape0 window = vad_buffer_size cfg ->
     vad1 window = vad2 window) ->
  _detect_speech_vad vad1 cfg audio s = _detect_speech_vad vad2 cfg audio s.
Proof.
  intros Hsize Hagree. unfold _detect_speech_vad.
  destruct (use_vad cfg); [|reflexivity]. cbn [negb]. cbv zeta.
  cbn [vad_buffer set_vad_buffer].
  destruct (_ <? vad_buffer_size cfg) eqn:E; [reflexivity|].
  apply Z.ltb_ge in E. rewrite <- shape0_cat in E.
  destruct (vad_buffer_size cfg <? shape0 (cat (vad_buffer s ++ [audio])))
    eqn:T.
  - apply Z.ltb_lt in T.
    rewrite (Hagree _ (proj2 (slice_from_last (vad_buffer_size cfg)
                                (cat (vad_buffer s ++ [audio])) Hsize E))).
    reflexivity.
  - apply Z.ltb_ge in T. rewrite (Hagree (cat (vad_buffer s ++ [audio])))
      by lia.
    reflexivity.
Qed.

End DetectorWindow.

(** ** More on the offline segmenter *)

Lemma py_max_lower (a b : Q) : (a <= py_max a b)%Q.
Proof.
  unfold py_max. destruct (Qgt_bool b a) eqn:E; [|apply Qle_refl].
  apply Qlt_le_weak, Qgt_bool_true, E.
Qed.

Lemma py_min_upper (a b : Q) : (py_min a b <= a)%Q.
Proof.
  unfold py_min. destruct (Qgt_bool a b) eqn:E; [|apply Qle_refl].
  apply Qlt_le_weak, Qgt_bool_true, E.
Qed.

Section OfflineChunks.

Context {Pipeline AudioSegment : Type}.
Variable from_pretrained : string -> fallible Pipeline.
Variable audio_len : AudioSegment -> Z.
Variable audio_slice : AudioSegment -> Z -> Z -> AudioSegment.
Variable get_array_of_samples : AudioSegment -> list Z.
Variable max_duration min_duration new_chunk_threshold : Q.

Abbreviation step_ :=
  (segment_step audio_len audio_slice get_array_of_samples
     max_duration min_duration new_chunk_threshold).
Abbreviation new_chunk :=
  (starts_new_chunk max_duration min_duration new_chunk_threshold).
Abbreviation emit_ := (emit audio_slice get_array_of_samples).
Abbreviation last_ := (last_chunk audio_slice get_array_of_samples).
Abbreviation to_tensor := (audiosegment_to_tensor get_array_of_samples).
Abbreviation merge :=
  (merge_timeline audio_len audio_slice get_array_of_samples
     max_duration min_duration new_chunk_threshold).
Abbreviation clamp_end_ := (clamp_end audio_len).
Abbreviation cut :=
  (fun (audio : AudioSegment) (a b : Q) =>
     to_tensor (audio_slice audio (py_int (a * 1000)) (py_int (b * 1000)))).


(** What [emit] adds to the output, if anything. *)
Lemma emit_outputs (audio : AudioSegment) (c : chunker) :
  (segments (emit_ audio c) = segments c /\
   boundaries (emit_ audio c) = boundaries c) \/
  (0 < shape0 (cut audio (curr_start c) (curr_end c)) /\
   segments (emit_ audio c)
   = segments c ++ [cut audio (curr_start c) (curr_end c)] /\
   boundaries (emit_ audio c)
   = boundaries c ++ [(curr_start c, curr_end c)]).
Proof.
  unfold emit. destruct (0 <? _) eqn:E.
  - right. apply Z.ltb_lt in E. split; [exact E|]. split; reflexivity.
  - left. split; reflexivity.
Qed.

Lemma step_outputs (audio : AudioSegment) (c : chunker)
  (segment : vad_segment) :
  (segments (step_ audio c segment) = segments c /\
   boundaries (step_ audio c segment) = boundaries c) \/
  ((curr_start c < curr_end c)%Q /\
   0 < shape0 (cut audio (curr_start c) (curr_end c)) /\
   segments (step_ audio c segment)
   = segments c ++ [cut audio (curr_start c) (curr_end c)] /\
   boundaries (step_ audio c segment)
   = boundaries c ++ [(curr_start c, curr_end c)]).
Proof.
  unfold segment_step. destruct (new_chunk c _ _); cbn [segments boundaries];
    [|left; split; reflexivity].
  destruct (Qgt_bool (curr_end c) (curr_start c)) eqn:E;
    [|left; split; reflexivity].
  apply Qgt_bool_true in E.
  destruct (emit_outputs audio c) as [H|[H1 H2]]; [left; exact H|].
  right. split; [exact E|]. split; [exact H1 | exact H2].
Qed.

Lemma last_outputs (audio : AudioSegment) (c : chunker) :
  (segments (last_ audio c) = segments c /\
   boundaries (last_ audio c) = boundaries c) \/
  ((curr_start c < curr_end c)%Q /\
   0 < shape0 (cut audio (curr_start c) (curr_end c)) /\
   segments (last_ audio c)
   = segments c ++ [cut audio (curr_start c) (curr_end c)] /\
   boundaries (last_ audio c)
   = boundaries c ++ [(curr_start c, curr_end c)]).
Proof.
  unfold last_chunk. destruct (negb _); cbn [andb];
    [|left; split; reflexivity].
  destruct (Qgt_bool (curr_end c) (curr_start c)) eqn:E;
    [|left; split; reflexivity].
  apply Qgt_bool_true in E.
  destruct (emit_outputs audio c) as [H|[H1 H2]]; [left; exact H|].
  right. split; [exact E|]. split; [exact H1 | exact H2].
Qed.

Lemma fold_step_invariant (I : chunker -> Prop) (audio : AudioSegment)
  (timeline : list vad_segment) :
  (forall c segment, In segment timeline -> I c -> I (step_ audio c segment)) ->
  forall c, I c -> I (fold_left (step_ audio) timeline c).
Proof.
  induction timeline as [|g rest IH]; intros Hstep c Hc; [exact Hc|].
  cbn [fold_left]. apply IH.
  - intros c0 seg Hin. apply Hstep. right. exact Hin.
  - apply Hstep; [left; reflexivity | exact Hc].
Qed.

Abbreviation chunk_ok :=
  (fun (audio : AudioSegment) (t : tensor) (ab : Q * Q) =>
     (0 <= fst ab)%Q /\ (fst ab < snd ab)%Q /\
     (snd ab <= inject_Z (audio_len audio) / 1000)%Q /\
     0 < shape0 t /\
     t = cut audio (fst ab) (snd ab)).

Abbreviation chunks_ok :=
  (fun (audio : AudioSegment) (c : chunker) =>
     Forall2 (chunk_ok audio) (segments c) (boundaries c) /\
     (0 <= curr_start c)%Q /\
     ((curr_end c <= inject_Z (audio_len audio) / 1000)%Q \/
      (curr_end c <= 0)%Q)).

Lemma chunks_ok_append (audio : AudioSegment) (c : chunker)
  (segs : list tensor) (bounds : list (Q * Q)) :
  chunks_ok audio c ->
  (segs = segments c /\ bounds = boundaries c) \/
  ((curr_start c < curr_end c)%Q /\
   0 < shape0 (cut audio (curr_start c) (curr_end c)) /\
   segs = segments c ++ [cut audio (curr_start c) (curr_end c)] /\
   bounds = boundaries c ++ [(curr_start c, curr_end c)]) ->
  Forall2 (chunk_ok audio) segs bounds.
Proof.
  intros [HF [H0 HL]] [[-> ->]|[Hlt [Hne [-> ->]]]]; [exact HF|].
  apply Forall2_app; [exact HF|]. constructor; [|constructor].
  cbn [fst snd]. split; [exact H0|]. split; [exact Hlt|].
  split; [|split; [exact Hne | reflexivity]].
  destruct HL as [HL|HL]; [exact HL|]. exfalso.
  apply (Qlt_irrefl 0). eapply Qle_lt_trans; [exact H0|].
  eapply Qlt_le_trans; [exact Hlt | exact HL].
Qed.

(** X18. Every chunk [segment_audio] returns goes with one pair of
    boundaries: the two lists are equally long, each chunk holds at least
    one sample and is exactly the audio cut between its boundaries (in
    whole milliseconds), and the boundaries satisfy
    0 <= start < end <= len(audio) / 1000. *)
Theorem merge_timeline_chunks (audio : AudioSegment)
  (timeline : list vad_segment) :
  length (fst (merge audio timeline)) = length (snd (merge audio timeline)) /\
  Forall2
    (fun t ab =>
       (0 <= fst ab)%Q /\ (fst ab < snd ab)%Q /\
       (snd ab <= inject_Z (audio_len audio) / 1000)%Q /\
       0 < shape0 t /\
       t = audiosegment_to_tensor get_array_of_samples
             (audio_slice audio (py_int (fst ab * 1000))
                (py_int (snd ab * 1000))))
    (fst (merge audio timeline)) (snd (merge audio timeline)).
Proof.
  assert (H : chunks_ok audio
                (fold_left (step_ audio) timeline initial_chunker)).
  { apply (fold_step_invariant (chunks_ok audio)).
    - intros c seg _ Hc.
      split; [exact (chunks_ok_append audio c _ _ Hc
                       (step_outputs audio c seg))|].
      destruct (segment_step_bounds audio_len audio_slice
                  get_array_of_samples max_duration min_duration
                  new_chunk_threshold audio c seg) as [Hs [He _]].
      rewrite Hs, He. split.
      + destruct (new_chunk c _ _); [apply py_max_lower | exact (proj1 (proj2 Hc))].
      + left. apply py_min_upper.
    - split; [constructor|]. split; [apply Qle_refl | right; apply Qle_refl]. }
  assert (F : Forall2 (chunk_ok audio)
                (fst (merge audio timeline)) (snd (merge audio timeline))).
  { unfold merge_timeline. cbn [fst snd].
    exact (chunks_ok_append audio _ _ _ H (last_outputs audio _)). }
  split; [exact (Forall2_length F) | exact F].
Qed.

Abbreviation bounded_ :=
  (fun c : chunker =>
     Forall (fun ab => (snd ab - fst ab <= max_duration)%Q) (boundaries c) /\
     (curr_duration c == curr_end c - curr_start c)%Q /\
     ((curr_end c - curr_start c <= max_duration)%Q \/
      ~ (curr_start c < curr_end c)%Q)).

Lemma bounded_append (c : chunker) (bounds : list (Q * Q)) :
  bounded_ c ->
  bounds = boundaries c \/
  ((curr_start c < curr_end c)%Q /\
   bounds = boundaries c ++ [(curr_start c, curr_end c)]) ->
  Forall (fun ab => (snd ab - fst ab <= max_duration)%Q) bounds.
Proof.
  intros [HF [_ HD]] [->|[Hlt ->]]; [exact HF|].
  apply Forall_app. split; [exact HF|]. constructor; [|constructor].
  cbn [fst snd]. destruct HD as [HD|HD]; [exact HD | contradiction].
Qed.

(** X19. If no single segment of the timeline, once clamped to the audio,
    lasts longer than [max_duration], then no chunk [segment_audio]
    returns does. *)
Theorem merge_timeline_max_duration (audio : AudioSegment)
  (timeline : list vad_segment) :
  Forall (fun segment =>
            (clamp_end_ audio segment - clamp_start segment
             <= max_duration)%Q) timeline ->
  Forall (fun ab => (snd ab - fst ab <= max_duration)%Q)
    (snd (merge audio timeline)).
Proof.
  intros Hseg. rewrite Forall_forall in Hseg.
  assert (H : bounded_ (fold_left (step_ audio) timeline initial_chunker)).
  { apply (fold_step_invariant bounded_).
    - intros c seg Hin Hc.
      destruct (segment_step_bounds audio_len audio_slice
                  get_array_of_samples max_duration min_duration
                  new_chunk_threshold audio c seg) as [Hs [He Hd]].
      split.
      { apply (bounded_append c _ Hc).
        destruct (step_outputs audio c seg) as [[_ Hb]|[Hlt [_ [_ Hb]]]];
          [left; exact Hb | right; split; [exact Hlt | exact Hb]]. }
      split; [rewrite Hd; reflexivity|]. left. rewrite Hs, He.
      destruct (new_chunk c (clamp_start seg) (clamp_end_ audio seg)) eqn:E.
      + exact (Hseg seg Hin).
      + apply Qnot_lt_le. intros Hgt.
        assert (Hn : new_chunk c (clamp_start seg) (clamp_end_ audio seg)
                     = true).
        { apply (starts_new_chunk_spec max_duration min_duration
                   new_chunk_threshold c _ _ (proj1 (proj2 Hc))).
          right. exact Hgt. }
        congruence.
    - split; [constructor|]. split; [reflexivity|]. right.
      apply Qlt_irrefl. }
  unfold merge_timeline. cbn [snd]. apply (bounded_append _ _ H).
  destruct (last_outputs audio
              (fold_left (step_ audio) timeline initial_chunker))
    as [[_ Hb]|[Hlt [_ [_ Hb]]]];
    [left; exact Hb | right; split; [exact Hlt | exact Hb]].
Qed.


(** X21. [audiosegment_to_tensor] on a mono segment keeps the number of
    samples and maps 16-bit samples into [-1, 1). *)
Theorem audiosegment_to_tensor_range (audio : AudioSegment) :
  Forall (fun z => -32768 <= z <= 32767) (get_array_of_samples audio) ->
  shape0 (to_tensor audio) = Z.of_nat (length (get_array_of_samples audio)) /\
  Forall (fun x => (-1 <= x)%Q /\ (x < 1)%Q) (to_tensor audio).
Proof.
  intros H. unfold audiosegment_to_tensor, shape0.
  rewrite length_map. split; [reflexivity|].
  apply Forall_map. eapply Forall_impl; [|exact H].
  intros z [Hlo Hhi]. cbv beta. unfold Qdiv, Qle, Qlt, Qmult, Qinv, inject_Z.
  cbn. lia.
Qed.

End OfflineChunks.

(** ** More on the two threads *)

Section ThreadProgress.

Variable max_buffer_samples : Z.

Abbreviation tstep := (thread_step max_buffer_samples).
Abbreviation sched := (schedule max_buffer_samples).

Lemma evict_steps_finish (b : list tensor) (total : Z) (lk : option thread)
  (w : worker_pc) (d : list tensor) :
  exists n s',
    (n <= length b + 1)%nat /\
    sched (repeat ProducerStep n)
      {| buffer := b; lock := lk; ppc := PEvict total; wpc := w;
         drained := d |} = Some s' /\
    ppc s' = PIdle /\ lock s' = None /\ wpc s' = w /\ drained s' = d.
Proof.
  revert total. induction b as [|r rest IH]; intros total.
  - exists 1%nat. cbn. destruct (max_buffer_samples <? total);
      eexists; (split; [lia|]); (split; [reflexivity|]); conjs; reflexivity.
  - destruct (max_buffer_samples <? total) eqn:E.
    + destruct (IH (total - shape0 r)) as [n [s' [Hn [Hs H]]]].
      exists (S n), s'. split; [cbn [length]; lia|]. split; [|exact H].
      cbn [repeat schedule]. unfold thread_step at 1.
      cbn [ppc wpc buffer lock drained]. rewrite E. exact Hs.
    + exists 1%nat. cbn. rewrite E.
      eexists; (split; [lia|]); (split; [reflexivity|]); conjs; reflexivity.
Qed.

(** X22. Under every interleaving of the producer and the worker, whenever
    the lock is free both threads are outside their locked blocks and the
    buffer is empty or within the capacity; and the system is never stuck:
    some thread can always take a step. *)
Theorem schedule_capacity_and_progress (events : list event) (s : shared) :
  sched events initial_shared = Some s ->
  (lock s = None <-> ppc s = PIdle /\ wpc s = WIdle) /\
  (lock s = None ->
   buffer s = [] \/ total_samples (buffer s) <= max_buffer_samples) /\
  (exists e s', tstep e s = Some s').
Proof.
  intros Hs.
  pose proof (schedule_invariant max_buffer_samples events initial_shared s
                (initial_invariant max_buffer_samples) Hs) as Hinv.
  unfold lock_invariant in Hinv.
  destruct (ppc s) as [|chunk|total] eqn:Ep;
    destruct (wpc s) as [| |audio|audio] eqn:Ew; try contradiction.
  - destruct Hinv as [Hl Hc]. split; [split; [split; reflexivity | intros _; exact Hl]|].
    split; [intros _; exact Hc|].
    exists WorkerStep. unfold thread_step. rewrite Ep, Ew, Hl.
    eexists. reflexivity.
  - destruct Hinv as [Hl Hc].
    split; [split; [congruence | intros [_ H]; discriminate H]|].
    split; [congruence|].
    exists WorkerStep. unfold thread_step. rewrite Ep, Ew.
    destruct (buffer s); eexists; reflexivity.
  - destruct Hinv as [Hl _].
    split; [split; [congruence | intros [_ H]; discriminate H]|].
    split; [congruence|].
    exists WorkerStep. unfold thread_step. rewrite Ep, Ew.
    eexists. reflexivity.
  - destruct Hinv as [Hl _].
    split; [split; [congruence | intros [_ H]; discriminate H]|].
    split; [congruence|].
    exists WorkerStep. unfold thread_step. rewrite Ep, Ew.
    eexists. reflexivity.
  - split; [split; [congruence | intros [H _]; discriminate H]|].
    split; [congruence|].
    exists ProducerStep. unfold thread_step. rewrite Ep.
    eexists. reflexivity.
  - destruct Hinv as [Hl _].
    split; [split; [congruence | intros [H _]; discriminate H]|].
    split; [congruence|].
    exists ProducerStep. unfold thread_step. rewrite Ep.
    destruct (max_buffer_samples <? total); [destruct (buffer s)|];
      eexists; reflexivity.
Qed.

(** X23. Both locked blocks end and give the lock back.  Once inside
    [add_audio_chunk], the producer is out again after at most
    len(buffer) + 3 of its own steps, also when [pop(0)] raises; the worker
    leaves its block after at most 3.  Neither touches the other thread's
    position. *)
Theorem locked_blocks_terminate (s : shared) :
  (ppc s <> PIdle ->
   exists n s',
     (n <= length (buffer s) + 3)%nat /\
     sched (repeat ProducerStep n) s = Some s' /\
     ppc s' = PIdle /\ lock s' = None /\ wpc s' = wpc s) /\
  (wpc s <> WIdle ->
   exists n s',
     (n <= 3)%nat /\
     sched (repeat WorkerStep n) s = Some s' /\
     wpc s' = WIdle /\ lock s' = None /\ ppc s' = ppc s).
Proof.
  split.
  - intros Hp. destruct s as [b lk p w d]. cbn [ppc buffer wpc] in *.
    destruct p as [|chunk|total]; [contradiction Hp; reflexivity| |].
    + destruct (evict_steps_finish (b ++ [chunk])
                  (total_samples (b ++ [chunk])) lk w d)
        as [n [s' [Hn [Hs [H1 [H2 [H3 _]]]]]]].
      exists (S n), s'. rewrite length_app in Hn. cbn [length] in Hn.
      split; [lia|]. split; [exact Hs|]. conjs; assumption.
    + destruct (evict_steps_finish b total lk w d)
        as [n [s' [Hn [Hs [H1 [H2 [H3 _]]]]]]].
      exists n, s'. split; [lia|]. split; [exact Hs|]. conjs; assumption.
  - intros Hw. destruct s as [b lk p w d]. cbn [ppc buffer wpc] in *.
    destruct w as [| |audio|audio]; [contradiction Hw; reflexivity| | |].
    + destruct b as [|c b].
      * exists 1%nat. eexists. split; [lia|]. split; [reflexivity|].
        conjs; reflexivity.
      * exists 3%nat. eexists. split; [lia|]. split; [reflexivity|].
        conjs; reflexivity.
    + exists 2%nat. eexists. split; [lia|]. split; [reflexivity|].
      conjs; reflexivity.
    + exists 1%nat. eexists. split; [lia|]. split; [reflexivity|].
      conjs; reflexivity.
Qed.

End ThreadProgress.

(** ** The constructor and [reset], composed with the loop *)

Lemma py_int_nonneg (x : Q) : (0 <= x)%Q -> 0 <= py_int x.
Proof.
  intros Hx. unfold py_int. rewrite (proj2 (Qle_bool_iff 0 x) Hx).
  change 0 with (Qfloor 0). apply Qfloor_resp_le. exact Hx.
Qed.

Lemma init_well_formed (rate size seconds : Z) (energy silence_duration : Q)
  (frames : Z) (with_vad : bool) (vad_level : Q) (cb loaded : bool) :
  0 < rate -> 0 <= seconds -> size <> 0 -> frames <> 0 ->
  let cfg := __init__ rate size seconds energy silence_duration frames
               with_vad vad_level cb loaded in
  sample_rate cfg <> 0 /\ stabilization_frames cfg <> 0 /\
  chunk_size cfg <> 0 /\ 0 <= max_buffer_samples cfg.
Proof.
  intros Hr Hs Hc Hf. cbn. split; [lia|]. split; [exact Hf|].
  split; [exact Hc | nia].
Qed.

Section ConstructedSession.

Context {Text Stamp : Type}.
Variable recognize_audio : tensor -> Text.
Variable format_time : Q -> Stamp.
Variable time_time : nat -> Q.

Abbreviation session := (@stream Text Stamp).

(** X24. A session built by [__init__] with a positive sample rate, a
    buffer size that is not negative, and a chunk size and a number of
    stabilisation frames different from zero never raises in the worker
    loop (the recogniser, [format_time] and the callback aside), and
    [add_audio_chunk] raises for an empty chunk only.  With a silence
    duration that is not negative, [min_silence_samples] is not negative
    either. *)
Theorem constructed_session_is_total (sample_rate chunk_size buffer_size : Z)
  (threshold min_silence_duration : Q) (stabilization_frames : Z)
  (use_vad : bool) (vad_threshold : Q) (callback vad_loaded : bool) :
  0 < sample_rate ->
  0 <= buffer_size ->
  chunk_size <> 0 ->
  stabilization_frames <> 0 ->
  let cfg := __init__ sample_rate chunk_size buffer_size threshold
               min_silence_duration stabilization_frames use_vad
               vad_threshold callback vad_loaded in
  (forall (chunk : tensor) (s : session),
     returns (add_audio_chunk cfg chunk s) = true <-> chunk <> []) /\
  (forall (chunks : list (bool * tensor)) (s : session),
     returns (run_classified recognize_audio format_time time_time cfg
                chunks s) = true) /\
  (forall s : session,
     returns (_process_stream_step recognize_audio format_time time_time
                cfg s) = true) /\
  ((0 <= min_silence_duration)%Q -> 0 <= min_silence_samples cfg).
Proof.
  intros Hsr Hbs Hcs Hsf cfg.
  destruct (init_well_formed sample_rate chunk_size buffer_size threshold
              min_silence_duration stabilization_frames use_vad
              vad_threshold callback vad_loaded Hsr Hbs Hcs Hsf)
    as [Hsr' [Hsf' [Hcs' Hmax]]].
  fold cfg in Hsr', Hsf', Hcs', Hmax.
  split; [|split; [|split]].
  - intros chunk s. split.
    + intros Hr ->. discriminate Hr.
    + intros Hne. destruct (normalize_some chunk Hne) as [stored Hn].
      unfold add_audio_chunk. rewrite Hn.
      destruct (evict_total (max_buffer_samples cfg)
                  (audio_buffer s ++ [stored]) Hmax) as [b' ->].
      reflexivity.
  - intros chunks s.
    destruct (run_returns recognize_audio format_time time_time cfg chunks s
                Hsf' Hsr') as [s' ->].
    reflexivity.
  - intros s.
    destruct (turn_returns recognize_audio format_time time_time cfg s
                Hsf' Hsr' Hcs') as [s' ->].
    reflexivity.
  - intros Hd. cbn [min_silence_samples __init__]. apply py_int_nonneg.
    apply Qmult_le_0_compat; [exact Hd|].
    rewrite <- (Zle_Qle 0). lia.
Qed.

(** X25. [reset] drops the run in progress: after it, silence changes
    nothing, and the next speech sub-chunk starts a run that holds that
    sub-chunk alone; the final results collected so far are still
    there. *)
Theorem reset_discards_run (cfg : config) (s : session) :
  (forall chunks : list tensor,
     run_classified recognize_audio format_time time_time cfg
       (silence chunks) (reset s) = Return (reset s)) /\
  (stabilization_frames cfg <> 0 -> sample_rate cfg <> 0 ->
   forall subchunk : tensor,
   exists s',
     on_subchunk recognize_audio format_time time_time cfg true subchunk
       (reset s) = Return s' /\
     is_speaking s' = true /\
     speaking_buffer s' = [subchunk] /\
     final_results s' = final_results s).
Proof.
  split.
  - intros chunks.
    exact (silence_idle recognize_audio format_time time_time cfg chunks
             (reset s) eq_refl).
  - intros Hsf Hsr subchunk.
    destruct (speech_step recognize_audio format_time time_time cfg subchunk
                (reset s) Hsf Hsr) as [s' [H1 [H2 [_ [H4 [H5 _]]]]]].
    exists s'. split; [exact H1|]. split; [exact H2|].
    split; [exact H4 | exact H5].
Qed.

End ConstructedSession.
(** * Examples on the reference collaborators *)

Import Reference.

(** The classified loop on one speech sub-chunk and three silence
    sub-chunks in the small session: one final result of 6 samples. *)
Lemma one_final_after_silence_witness :
  exists (s' : @stream tensor Q) (r : result),
    run_small (speech [[1; 1]] ++ silence [[0; 0]; [0; 0]; [0; 0]])%Q
      initial_stream = Return s' /\
    final_results s' = [r] /\
    is_final r = true /\
    duration r = format_time (seconds small_config 6).
Proof.
  destruct (one_final_after_silence recognize_audio format_time time_time
              small_config [[1; 1]]%Q [[0; 0]; [0; 0]; [0; 0]]%Q
              initial_stream)
    as [s' [r [H1 [H2 [H3 [_ [H5 _]]]]]]].
  - reflexivity.
  - discriminate.
  - discriminate.
  - discriminate.
  - reflexivity.
  - discriminate.
  - repeat constructor.
  - reflexivity.
  - exists s', r. split; [exact H1|]. split; [exact H2|].
    split; [exact H3 | exact H5].
Defined.

(** The classified loop with the constructor's defaults (sub-chunks of
    4000 samples at 16 kHz, 12800 samples of silence close a run, so
    ceil(12800/4000) + 1 = 5 silence sub-chunks).  Without a speech
    sub-chunk no final result is emitted.  After one speech sub-chunk the
    final result lasts 20000 samples, 1.25 s: the four silence sub-chunks
    that close the run are part of it. *)
Lemma final_result_counts_trailing_silence :
  final_results
    (state_of (run_default (silence (repeat (zeros 4000) 5)))) = [] /\
  map (fun r : result => (Qred (duration r), shape0 (text r), is_final r))
    (final_results
       (state_of (run_default (speech [zeros 4000]
                               ++ silence (repeat (zeros 4000) 5)))))
  = [(5 # 4, 20000, true)].
Proof. split; vm_compute; reflexivity. Qed.

(** C2, witness: two chunks of 3 samples in a buffer of 4. *)
Lemma add_audio_chunk_capacity_witness :
  total_samples [[0; 0; 0]%Q] <= max_buffer_samples small_config /\
  exists (s : @stream tensor Q) (stored : tensor) (n : nat),
    apply_ops small_config [OpAppend [0; 0; 0]%Q] initial_stream = Return s /\
    normalize [0; 0; 0]%Q = Some stored /\
    [[0; 0; 0]%Q] = skipn n (audio_buffer s ++ [stored]).
Proof.
  exact (add_audio_chunk_capacity small_config [OpAppend [0; 0; 0]%Q]
           [0; 0; 0]%Q (set_audio_buffer [[0; 0; 0]%Q] initial_stream)
           eq_refl).
Defined.

(** C3, witness: six speech sub-chunks with an interim result every two. *)
Lemma interim_every_stabilization_frames_witness :
  exists s' : @stream tensor Q,
    run_small (speech ([[1]; [2]] ++ [[3]; [4]] ++ [[5]; [6]]))%Q
      initial_stream = Return s' /\
    length (interim_results s') = 3%nat /\
    final_results s' = [].
Proof.
  destruct (proj1 (proj2 (interim_every_stabilization_frames recognize_audio
                            format_time time_time small_config
                            eq_refl ltac:(discriminate)))
              [[1]; [2]]%Q [[3]; [4]]%Q [[5]; [6]]%Q initial_stream
              eq_refl eq_refl eq_refl eq_refl)
    as [s' [H1 [H2 [H3 _]]]].
  exists s'. split; [exact H1|]. split; [rewrite H2; reflexivity | exact H3].
Defined.


(** C6, witness: 40 s of audio, segments 0-5 s and 5.1-10 s, default
    bounds: one chunk from 0 to 10 s. *)
Lemma segment_audio_chunking_rule_witness :
  snd (merge_timeline audio_len audio_slice get_array_of_samples
         22 15 (2 # 10) (make_audio (zeros 400) 10)
         [seg 0 5; seg (51 # 10) 10])
  = [(0%Q, 10%Q)].
Proof.
  rewrite (proj1 (proj2 (segment_audio_chunking_rule audio_len audio_slice
                           get_array_of_samples 22 15 (2 # 10)))
             (make_audio (zeros 400) 10) (seg 0 5) (seg (51 # 10) 10)).
  - reflexivity.
  - discriminate.
  - discriminate.
  - discriminate.
  - discriminate.
  - reflexivity.
  - reflexivity.
Defined.

(** C6, counterexample: 40 s of audio at 1 kHz, segments 0-20 s and
    20.1-30 s, default bounds.  The gap of 0.1 s is below
    [new_chunk_threshold] = 0.2 s, yet two chunks come out, because the
    merged chunk would last 30 s > [max_duration] = 22 s. *)
Lemma small_gap_does_not_always_merge :
  ((201 # 10) - 20 < 2 # 10)%Q /\
  match segment_audio (cached [seg 0 20; seg (201 # 10) 30])
          (TorchTensor (zeros 40000)) 1000 with
  | Ok (segments, boundaries) =>
      length segments = 2%nat /\
      boundaries = [(0, 20); (201 # 10, 30)]%Q
  | Failed _ => False
  end.
Proof. split; [reflexivity | vm_compute; split; reflexivity]. Qed.

(** C7, witness: a NumPy array is refused with [TypeError]. *)
Lemma segment_audio_failures_witness :
  segment_audio no_credentials (NdArray (zeros 10)) 10
  = Failed (TypeError "wav_tensor must be a torch.Tensor"%string).
Proof.
  exact (proj1 (segment_audio_failures from_pretrained apply_pipeline
                  build_audio export audio_len audio_slice
                  get_array_of_samples 22 15 (2 # 10)
                  no_credentials (NdArray (zeros 10)) 10 eq_refl)
           eq_refl).
Defined.

(** C7, counterexample: a torch tensor of one second at 16 kHz, with no
    pipeline cached and no [HF_TOKEN]: the call fails with [ValueError]
    although the input is a tensor and the clip is not too short. *)
Lemma segment_audio_fails_without_credentials :
  is_torch_tensor (TorchTensor (zeros 16000)) = true /\
  1000 <= audio_len (make_audio (zeros 16000) 16000) /\
  segment_audio no_credentials (TorchTensor (zeros 16000)) 16000
  = Failed (ValueError "HF_TOKEN environment variable is not set"%string).
Proof.
  split; [reflexivity|]. split; vm_compute; [discriminate | reflexivity].
Qed.

(** C8, witness: a chunk of peak 4 is stored with every sample divided
    by 4. *)
Lemma add_audio_chunk_normalization_witness :
  exists (stored : tensor) (n : nat),
    audio_buffer
      (state_of (add_audio_chunk small_config [2; -4; 1]%Q
                   (@initial_stream tensor Q)))
    = skipn n ([] ++ [stored]) /\
    stored = [2 # 4; -4 # 4; 1 # 4]%Q /\
    Forall (fun y => (Qabs y <= 1)%Q) stored.
Proof.
  destruct (proj2 (add_audio_chunk_normalization small_config [2; -4; 1]%Q 4
                     (@initial_stream tensor Q) eq_refl))
    as [stored [n [H1 [H2 _]]]].
  exists stored, n. split; [exact H1|].
  destruct (H2 eq_refl) as [Hs [Hb _]].
  split; [exact Hs | exact Hb].
Defined.

(** C9, witness: at 4 Hz the window wants 12 samples; 2 are not enough. *)
Lemma vad_window_not_full_witness :
  fst (_detect_speech_vad (fun _ => Some [])
         (__init__ 4 2 1 (1 # 100) 1 2 true (1 # 2) false true)
         [0; 0]%Q (@initial_stream tensor Q))
  = false.
Proof.
  exact (f_equal fst
           (proj1 (vad_window_not_full (fun _ => Some []) 4 2 1 (1 # 100) 1 2
                     (1 # 2) false [0; 0]%Q (@initial_stream tensor Q)
                     eq_refl))).
Defined.

(** C10, witness: a chunk of 5 samples in a buffer of 4 that holds 3. *)
Lemma add_audio_chunk_oversized_witness :
  audio_buffer
    (state_of (add_audio_chunk small_config [0; 0; 0; 0; 0]%Q
                 (set_audio_buffer [[0; 0; 0]%Q] (@initial_stream tensor Q))))
  = [] /\
  returns (add_audio_chunk small_config [0; 0; 0; 0; 0]%Q
             (set_audio_buffer [[0; 0; 0]%Q] (@initial_stream tensor Q)))
  = true.
Proof.
  exact (add_audio_chunk_oversized small_config [OpAppend [0; 0; 0]%Q]
           [0; 0; 0; 0; 0]%Q
           (set_audio_buffer [[0; 0; 0]%Q] initial_stream) eq_refl eq_refl).
Defined.

(** X4, witness: a second chunk of 3 samples in a buffer of 4 pushes the
    first one out. *)
Lemma add_audio_chunk_evicts_oldest_only_witness :
  exists (stored : tensor) (n : nat),
    normalize [0; 0; 0]%Q = Some stored /\
    [[0; 0; 0]%Q] = skipn n ([[0; 0; 0]%Q] ++ [stored]) /\
    forall k, (k < n)%nat ->
      4 < total_samples (skipn k ([[0; 0; 0]%Q] ++ [stored])).
Proof.
  destruct (add_audio_chunk_evicts_oldest_only small_config [0; 0; 0]%Q
              (set_audio_buffer [[0; 0; 0]%Q] (@initial_stream tensor Q))
              (set_audio_buffer [[0; 0; 0]%Q] initial_stream) eq_refl)
    as [stored [n [H1 [H2 [_ H4]]]]].
  exists stored, n. split; [exact H1|]. split; [exact H2 | exact H4].
Defined.

(** X6, witness: a chunk of peak 4, once divided by 4, is kept as it is. *)
Lemma normalize_idempotent_witness :
  normalize (scale_by 4 [2; -4; 1]%Q) = Some (scale_by 4 [2; -4; 1]%Q).
Proof.
  exact (normalize_idempotent [2; -4; 1]%Q (scale_by 4 [2; -4; 1]%Q) eq_refl).
Defined.

(** X7, witness: two chunks of 1 and 2 samples in a buffer of 4. *)
Lemma appended_chunks_drain_in_order_witness :
  exists s' : @stream tensor Q,
    apply_ops small_config [OpAppend [1]%Q; OpAppend [2; -4]%Q]
      initial_stream = Return s' /\
    drain_all s'
    = Some (cat [[1]%Q; scale_by 4 [2; -4]%Q],
            set_audio_buffer [] initial_stream).
Proof.
  destruct (appended_chunks_drain_in_order small_config [[1]; [2; -4]]%Q
              [[1]%Q; scale_by 4 [2; -4]%Q] (@initial_stream tensor Q))
    as [s' [H1 [_ H3]]].
  - constructor; [reflexivity|]. constructor; [reflexivity | constructor].
  - discriminate.
  - discriminate.
  - exists s'. split; [exact H1 | exact H3].
Defined.

(** X8, witness: five samples in sub-chunks of two. *)
Lemma subchunks_partition_witness :
  cat (subchunks small_config [1; 2; 3; 4; 5]%Q) = [1; 2; 3; 4; 5]%Q /\
  Z.of_nat (length (subchunks small_config [1; 2; 3; 4; 5]%Q)) = 3.
Proof.
  destruct (subchunks_partition small_config [1; 2; 3; 4; 5]%Q eq_refl)
    as [H1 [H2 _]].
  split; [exact H1 | exact H2].
Defined.

(** X9, witness: the small session on speech followed by silence. *)
Lemma worker_never_raises_witness :
  returns (run_small (speech [[1; 1]%Q] ++ silence [[0; 0]%Q])
             initial_stream) = true.
Proof.
  exact (proj1 (worker_never_raises recognize_audio format_time time_time
                  small_config ltac:(discriminate) ltac:(discriminate))
           (speech [[1; 1]%Q] ++ silence [[0; 0]%Q]) initial_stream).
Defined.

(** X10, witness: three buffered samples become two sub-chunks of the
    run. *)
Lemma worker_turn_accumulates_witness :
  exists s' : @stream tensor Q,
    _process_stream_step recognize_audio format_time time_time small_config
      (set_audio_buffer [[1; 2; 3]%Q] initial_stream) = Return s' /\
    audio_buffer s' = [] /\
    speaking_buffer s' = [[1; 2]%Q; [3]%Q].
Proof.
  destruct (worker_turn_accumulates recognize_audio format_time time_time
              small_config (set_audio_buffer [[1; 2; 3]%Q] initial_stream))
    as [s' [H1 [H2 [_ [H4 _]]]]].
  - reflexivity.
  - discriminate.
  - discriminate.
  - reflexivity.
  - discriminate.
  - exists s'. split; [exact H1|]. split; [exact H2 | exact H4].
Defined.

(** X11, witness: five speech sub-chunks, an interim result every two. *)
Lemma interim_count_witness :
  exists s' : @stream tensor Q,
    run_small (speech [[1]; [2]; [3]; [4]; [5]])%Q initial_stream
    = Return s' /\
    Z.of_nat (length (interim_results s')) = 2.
Proof.
  destruct (interim_count recognize_audio format_time time_time small_config
              [[1]; [2]; [3]; [4]; [5]]%Q initial_stream)
    as [s' [H1 [H2 _]]].
  - reflexivity.
  - discriminate.
  - exists s'. split; [exact H1 | exact H2].
Defined.

(** X13, witness: a session built with a chunk size of zero. *)
Lemma worker_turn_ill_formed_witness :
  _process_stream_step recognize_audio format_time time_time
    (__init__ 4 0 1 (1 # 100) 1 2 true (1 # 2) false false)
    (set_audio_buffer [[1%Q]] initial_stream)
  = Raise (ValueError "range() arg 3 must not be zero"%string)
      (set_audio_buffer [] (set_audio_buffer [[1%Q]] initial_stream)).
Proof.
  exact (proj1 (worker_turn_ill_formed recognize_audio format_time time_time
                  (__init__ 4 0 1 (1 # 100) 1 2 true (1 # 2) false false)
                  (set_audio_buffer [[1%Q]] initial_stream)
                  eq_refl ltac:(discriminate))
           eq_refl).
Defined.

(** X16, witness: at 1 Hz the window holds 3 samples; two buffered samples
    and two new ones leave the last three. *)
Lemma vad_window_keeps_last_samples_witness :
  cat (vad_buffer
         (snd (_detect_speech_vad (fun _ => Some [])
                 (__init__ 1 2 1 (1 # 100) 1 2 true (1 # 2) false true)
                 [3; 4]%Q
                 (set_vad_buffer [[1; 2]%Q] (@initial_stream tensor Q)))))
  = [2; 3; 4]%Q.
Proof.
  exact (proj1 (proj2 (vad_window_keeps_last_samples
                         (__init__ 1 2 1 (1 # 100) 1 2 true (1 # 2) false true)
                         (fun _ => Some []) [3; 4]%Q
                         (set_vad_buffer [[1; 2]%Q]
                            (@initial_stream tensor Q))
                         eq_refl eq_refl))).
Defined.

(** X17, witness: a pipeline that fails on every window that is not of 3
    samples cannot be told from one that never fails. *)
Lemma vad_sees_only_full_windows_witness :
  _detect_speech_vad (fun _ => Some [])
    (__init__ 1 2 1 (1 # 100) 1 2 true (1 # 2) false true) [3; 4]%Q
    (set_vad_buffer [[1; 2]%Q] (@initial_stream tensor Q))
  = _detect_speech_vad (fun w => if shape0 w =? 3 then Some [] else None)
      (__init__ 1 2 1 (1 # 100) 1 2 true (1 # 2) false true) [3; 4]%Q
      (set_vad_buffer [[1; 2]%Q] (@initial_stream tensor Q)).
Proof.
  apply (vad_sees_only_full_windows
           (__init__ 1 2 1 (1 # 100) 1 2 true (1 # 2) false true)).
  - reflexivity.
  - intros w Hw. change (shape0 w = 3) in Hw. rewrite Hw. reflexivity.
Defined.

(** X19, witness: 40 s of audio, segments 0-5 s and 5.1-10 s, default
    bounds. *)
Lemma merge_timeline_max_duration_witness :
  Forall (fun ab => (snd ab - fst ab <= 22)%Q)
    (snd (merge_timeline audio_len audio_slice get_array_of_samples
            22 15 (2 # 10) (make_audio (zeros 400) 10)
            [seg 0 5; seg (51 # 10) 10])).
Proof.
  apply merge_timeline_max_duration.
  constructor; [apply Qle_bool_imp_le; reflexivity|].
  constructor; [apply Qle_bool_imp_le; reflexivity | constructor].
Defined.


(** X21, witness: the samples 16384, -32768 and 0. *)
Lemma audiosegment_to_tensor_range_witness :
  Forall (fun x => (-1 <= x)%Q /\ (x < 1)%Q)
    (audiosegment_to_tensor get_array_of_samples
       (make_audio [1 # 2; -1; 0]%Q 10)).
Proof.
  apply (audiosegment_to_tensor_range get_array_of_samples
           (make_audio [1 # 2; -1; 0]%Q 10)).
  repeat (constructor; [split; discriminate|]). constructor.
Defined.

(** X22, witness: after one whole call of [add_audio_chunk] the lock is
    free and some thread can move. *)
Lemma schedule_capacity_and_progress_witness :
  exists e s',
    thread_step 4 e
      {| buffer := [[1%Q]]; lock := None; ppc := PIdle; wpc := WIdle;
         drained := [] |} = Some s'.
Proof.
  exact (proj2 (proj2 (schedule_capacity_and_progress 4
                         [Call [1%Q]; ProducerStep; ProducerStep]
                         {| buffer := [[1%Q]]; lock := None; ppc := PIdle;
                            wpc := WIdle; drained := [] |} eq_refl))).
Defined.

(** X24, witness: the constructor's defaults. *)
Lemma constructed_session_is_total_witness :
  returns (add_audio_chunk (default_config true) [1%Q]
             (@initial_stream tensor Q)) = true.
Proof.
  apply (proj1 (constructed_session_is_total recognize_audio format_time
                  time_time 16000 4000 30 (1 # 100) (8 # 10) 5 true (1 # 2)
                  false true eq_refl ltac:(discriminate)
                  ltac:(discriminate) ltac:(discriminate))
           [1%Q] initial_stream).
  discriminate.
Defined.

(** X27, witness: a session with a callback; two speech sub-chunks give an
    interim result at the first clock reading, two silence sub-chunks a
    final result at the second. *)
Lemma results_are_stamped_by_the_clock_witness :
  map (@end_time tensor Q)
    (callback_log
       (state_of
          (run_classified recognize_audio format_time time_time
             (__init__ 4 2 1 (1 # 100) 1 2 true (1 # 2) true false)
             (speech [[1]; [2]] ++ silence [[0; 0]; [0; 0]])%Q
             initial_stream)))
  = [time_time 0; time_time 1].
Proof.
  exact (proj2 (results_are_stamped_by_the_clock recognize_audio format_time
                  time_time
                  (__init__ 4 2 1 (1 # 100) 1 2 true (1 # 2) true false)
                  (speech [[1]; [2]] ++ silence [[0; 0]; [0; 0]])%Q
                  eq_refl ltac:(discriminate))).
Defined.

(** C1, the defect, on the program as it runs.  With the constructor's
    defaults, [add_audio_chunk] is given 4000 samples of amplitude 0.5
    followed by 20000 zeros and the worker loop takes one turn.  The
    sub-chunks are K = 1 of speech and
    ceil(min_silence_samples / chunk_size) + 1 = 5 of silence: that is how
    [_detect_speech_energy] classifies them.  [_detect_speech], which the
    loop calls, returns [True] on its first line for all six, so no final
    result is emitted: the session is left speaking, with the six
    sub-chunks in the run and one interim result.  On the labels of the
    energy detector the same loop emits exactly one final result. *)
Theorem process_stream_no_final_after_silence :
  let cfg := default_config false in
  let audio := repeat (1 # 2)%Q (Z.to_nat 4000) ++ zeros 20000 in
  let chunks := subchunks cfg audio in
  let s' :=
    state_of
      (bind (add_audio_chunk cfg audio (@initial_stream tensor Q))
         (_process_stream_step recognize_audio format_time time_time cfg)) in
  Z.of_nat (length chunks)
    = 1 + (ceil_div (min_silence_samples cfg) (chunk_size cfg) + 1) /\
  map (_detect_speech_energy cfg) chunks
    = [true; false; false; false; false; false] /\
  map _detect_speech chunks = [true; true; true; true; true; true] /\
  final_results s' = [] /\
  is_speaking s' = true /\
  length (speaking_buffer s') = 6%nat /\
  length (interim_results s') = 1%nat /\
  map (fun r : result => is_final r)
    (final_results
       (state_of
          (run_default
             (map (fun c => (_detect_speech_energy cfg c, c)) chunks))))
  = [true].
Proof. cbv zeta. conjs; vm_compute; reflexivity. Qed.
